(** * LumaMap: MIDI activation engine and polygon authoring state machine

    A shallow embedding of the TypeScript sources

    - [utils/midiUtils.ts]      ([parseMidiMessage], [getNoteKey]),
    - [types.ts]                ([Point], [Shape], [ActiveNote], [AppMode]),
    - [App.tsx]                 ([handleMidiMessage], [handleNewShape],
                                 [updateShape]),
    - [components/ProjectionCanvas.tsx]
                                ([getCoords], [handleSvgClick],
                                 [finishDrawing], [handleKeyDown],
                                 [handleWindowMouseMove], [isShapeActive]
                                 and the fill opacity of a polygon),

    followed by the properties proved about them.

    Conventions of the embedding.
    - A [Uint8Array] is a [list byte]; reading an element gives its value
      as a [Z], and reading past the end gives [undefined], here [None].
    - Integer-valued JavaScript numbers (channels, notes, velocities,
      timestamps) are [Z]; the bit operators are those of [Z].
    - Opacities, and the pointer and bounding-box numbers the browser
      supplies, are exact rationals [Q]. A coordinate the code computes
      is a [JsNumber]: a rational, an infinity or [NaN], since
      [getCoords] divides by a width or height that can be zero. The
      rounding of floating point is not modelled.
    - A [Map<string, ActiveNote>] is a [gmap string ActiveNote].
    - A JavaScript array that is written by index is a list of optional
      elements, [None] being a hole left by a write past the end.
    - [Date.now()] and [crypto.randomUUID()] are inputs of the handler
      that calls them. *)

From Stdlib Require Import ZArith QArith Qminmax Lia Lqa List.
From Stdlib.Strings Require Import Byte Ascii.
From stdpp Require Import base option list strings pretty gmap.

Local Open Scope Z_scope.

(* ===================================================================== *)
(** * types.ts *)
(* ===================================================================== *)

(** A number computed by the code that need not be finite. *)
Inductive JsNumber :=
  | Finite (q : Q)
  | PosInfinity
  | NegInfinity
  | NaN.

(** [Point]: the fields [x] and [y], named [px] and [py] here. *)
Record Point := mkPoint { px : JsNumber; py : JsNumber }.

Record Shape := mkShape {
  shape_id : string;
  name : string;
  points : list (option Point);
  channel : Z;            (* 0 = Omni, 1-16 *)
  noteStart : Z;
  noteEnd : Z;
  color : string;
  velocitySensitive : bool;
  baseOpacity : Q
}.

Record ActiveNote := mkActiveNote { velocity : Z; timestamp : Z }.

(** Map key: "channel-note" -> ActiveNote *)
Abbreviation ActiveNotesMap := (gmap string ActiveNote).

Inductive AppMode := EDIT | PERFORMANCE.

(* ===================================================================== *)
(** * utils/midiUtils.ts *)
(* ===================================================================== *)

Module MidiUtils.

(** [data[i]] on a [Uint8Array]: the element as a number, or [undefined]. *)
Definition byteAt (data : list byte) (i : nat) : option Z :=
  (fun b => Z.of_N (Byte.to_N b)) <$> (data !! i).

(** The operand conversion of [>>], [&]: [undefined] becomes [0]; the
    elements of a [Uint8Array] are their own 32-bit value. *)
Definition toInt32 (v : option Z) : Z := default 0 v.

Record ParsedMessage := mkParsed {
  msg_command : Z;
  msg_channel : Z;
  msg_note : option Z;
  msg_velocity : Z
}.

(** [parseMidiMessage]:
<<
  const command = data[0] >> 4;
  const channel = (data[0] & 0xf) + 1;
  const note = data[1];
  const velocity = data.length > 2 ? data[2] : 0;
>>
    Under the guard [data.length > 2] the element [data[2]] exists, so
    the velocity is always a number; command and channel are numbers
    because of the bit operators; only [note] can be [undefined]. *)
Definition parseMidiMessage (data : list byte) : ParsedMessage :=
  let command := Z.shiftr (toInt32 (byteAt data 0)) 4 in
  let channel := Z.land (toInt32 (byteAt data 0)) 15 + 1 in
  let note := byteAt data 1 in
  let velocity :=
    if decide (2 < length data)%nat then default 0 (byteAt data 2) else 0 in
  mkParsed command channel note velocity.

(** The string a template literal produces for a number or [undefined].
    Integers print in decimal, negative ones with a leading minus sign. *)
Definition numberToString (v : option Z) : string :=
  match v with
  | Some z => pretty z
  | None => "undefined"
  end.

(** [getNoteKey]: [`${channel}-${note}`]. *)
Definition getNoteKey (channel : Z) (note : option Z) : string :=
  pretty channel +:+ "-" +:+ numberToString note.

Definition NOTE_NAMES : list string :=
  ["C"; "C#"; "D"; "D#"; "E"; "F"; "F#"; "G"; "G#"; "A"; "A#"; "B"].

(** [arr[i]] on an array that is only read, for an integer [i]:
    [undefined] when [i] is negative or past the end. *)
Definition elementAt {A} (arr : list A) (i : Z) : option A :=
  if i <? 0 then None else arr !! Z.to_nat i.

(** [midiNoteToName]:
<<
  const octave = Math.floor(note / 12) - 1;
  const name = NOTE_NAMES[note % 12];
  return `${name}${octave}`;
>>
    [Math.floor] of the quotient is the floor division of [Z]; [%] takes
    the sign of the dividend, as [Z.rem]; an [undefined] name prints as
    the word. *)
Definition midiNoteToName (note : Z) : string :=
  let octave := Z.div note 12 - 1 in
  let name := elementAt NOTE_NAMES (Z.rem note 12) in
  default "undefined" name +:+ pretty octave.

End MidiUtils.

Import MidiUtils.

(* ===================================================================== *)
(** * App.tsx *)
(* ===================================================================== *)

Module App.

(** The part of the component state the authoring handlers touch. *)
Record AppState := mkApp {
  shapes : list Shape;
  selectedShapeId : option string;
  mode : AppMode
}.

(** [handleMidiMessage]. [current] is [activeNotesRef.current]; the map
    returned is [newMap], which the handler stores back into the ref and
    publishes with [setActiveNotes]. [now] is the value of [Date.now()].
<<
    const { command, channel, note, velocity } = parseMidiMessage(event.data);
    const key = getNoteKey(channel, note);
    const newMap = new Map(activeNotesRef.current);
    if (command === 9 && velocity > 0) {
      newMap.set(key, { velocity, timestamp: Date.now() });
    }
    else if (command === 8 || (command === 9 && velocity === 0)) {
      newMap.delete(key);
    }
>> *)
Definition handleMidiMessage
    (current : ActiveNotesMap) (data : list byte) (now : Z) : ActiveNotesMap :=
  let msg := parseMidiMessage data in
  let command := msg_command msg in
  let velocity := msg_velocity msg in
  let key := getNoteKey (msg_channel msg) (msg_note msg) in
  let newMap := current in
  if (command =? 9) && (0 <? velocity) then
    <[ key := mkActiveNote velocity now ]> newMap
  else if (command =? 8) || ((command =? 9) && (velocity =? 0)) then
    delete key newMap
  else
    newMap.

(** [handleNewShape]; [uuid] is the value of [crypto.randomUUID()]. *)
Definition handleNewShape
    (app : AppState) (uuid : string) (pts : list (option Point)) : AppState :=
  let newShape := {|
    shape_id := uuid;
    name := "Shape " +:+ pretty (length (shapes app) + 1)%nat;
    points := pts;
    channel := 0;        (* Omni *)
    noteStart := 60;     (* Middle C *)
    noteEnd := 60;
    color := "#00ffcc";
    velocitySensitive := false;
    baseOpacity := 1
  |} in
  {| shapes := shapes app ++ [newShape];
     selectedShapeId := Some (shape_id newShape);
     mode := mode app |}.

(** [updateShape]: [shapes.map(s => s.id === updated.id ? updated : s)]. *)
Definition updateShape (app : AppState) (updated : Shape) : AppState :=
  {| shapes :=
       map (fun s => if decide (shape_id s = shape_id updated) then updated else s)
           (shapes app);
     selectedShapeId := selectedShapeId app;
     mode := mode app |}.

(** [setSelectedShapeId], handed to the canvas as [onShapeSelect]. *)
Definition setSelectedShapeId (app : AppState) (sel : option string) : AppState :=
  {| shapes := shapes app; selectedShapeId := sel; mode := mode app |}.

(** [deleteShape]:
<<
    setShapes(shapes.filter(s => s.id !== id));
    if (selectedShapeId === id) setSelectedShapeId(null);
>> *)
Definition deleteShape (app : AppState) (id : string) : AppState :=
  {| shapes := filter (λ s, shape_id s ≠ id) (shapes app);
     selectedShapeId :=
       if decide (selectedShapeId app = Some id) then None
       else selectedShapeId app;
     mode := mode app |}.

(** [setMode]. *)
Definition setMode (app : AppState) (m : AppMode) : AppState :=
  {| shapes := shapes app; selectedShapeId := selectedShapeId app; mode := m |}.

(** [handleGlobalKeyDown]: Escape leaves performance mode. *)
Definition handleGlobalKeyDown (app : AppState) (key : string) : AppState :=
  if String.eqb key "Escape"
     && match mode app with PERFORMANCE => true | EDIT => false end
  then setMode app EDIT
  else app.

(** [selectedShape]: [shapes.find(s => s.id === selectedShapeId)]. *)
Definition selectedShape (app : AppState) : option Shape :=
  List.find (fun s => bool_decide (Some (shape_id s) = selectedShapeId app))
            (shapes app).

End App.

Import App.

(* ===================================================================== *)
(** * components/ShapeEditor.tsx *)
(* ===================================================================== *)

Module ShapeEditor.

(** The calls of [handleChange] the form makes: the field and the value
    read from the input ([parseInt] of the text for the three numbers,
    taken here as the integer it denotes). *)
Inductive FieldEdit :=
  | EditName (value : string)
  | EditColor (value : string)
  | EditChannel (value : Z)
  | EditNoteStart (value : Z)
  | EditNoteEnd (value : Z)
  | EditVelocitySensitive (value : bool)
  | EditBaseOpacity (value : Q).

(** [handleChange]: the shape handed to [onUpdate],
    [{ ...shape, [field]: value }]. *)
Definition handleChange (shape : Shape) (edit : FieldEdit) : Shape :=
  match edit with
  | EditName v =>
      mkShape (shape_id shape) v (points shape) (channel shape)
              (noteStart shape) (noteEnd shape) (color shape)
              (velocitySensitive shape) (baseOpacity shape)
  | EditColor v =>
      mkShape (shape_id shape) (name shape) (points shape) (channel shape)
              (noteStart shape) (noteEnd shape) v
              (velocitySensitive shape) (baseOpacity shape)
  | EditChannel v =>
      mkShape (shape_id shape) (name shape) (points shape) v
              (noteStart shape) (noteEnd shape) (color shape)
              (velocitySensitive shape) (baseOpacity shape)
  | EditNoteStart v =>
      mkShape (shape_id shape) (name shape) (points shape) (channel shape)
              v (noteEnd shape) (color shape)
              (velocitySensitive shape) (baseOpacity shape)
  | EditNoteEnd v =>
      mkShape (shape_id shape) (name shape) (points shape) (channel shape)
              (noteStart shape) v (color shape)
              (velocitySensitive shape) (baseOpacity shape)
  | EditVelocitySensitive v =>
      mkShape (shape_id shape) (name shape) (points shape) (channel shape)
              (noteStart shape) (noteEnd shape) (color shape)
              v (baseOpacity shape)
  | EditBaseOpacity v =>
      mkShape (shape_id shape) (name shape) (points shape) (channel shape)
              (noteStart shape) (noteEnd shape) (color shape)
              (velocitySensitive shape) v
  end.

End ShapeEditor.

Import ShapeEditor.

(* ===================================================================== *)
(** * components/ProjectionCanvas.tsx *)
(* ===================================================================== *)

Module ProjectionCanvas.

(** The component's own state ([useState]). *)
Record CanvasState := mkCanvas {
  drawingPoints : list (option Point);
  isDrawing : bool;
  draggedPointIndex : option nat
}.

(** [svgRef.current.getBoundingClientRect()], the fields that are read. *)
Record Rect := mkRect { left : Q; top : Q; width : Q; height : Q }.

(** A [string | null] used as a condition: [null] and the empty string
    are falsy. *)
Definition truthy (s : option string) : bool :=
  match s with
  | Some s => negb (String.eqb s "")
  | None => false
  end.

(** [n / d] on finite numbers. A zero divisor is the [+0] a bounding box
    has for an empty width or height: the quotient is then an infinity
    with the sign of [n], and [NaN] for [0 / 0]. *)
Definition jsDivide (n d : Q) : JsNumber :=
  if Qeq_bool d 0 then
    match (n ?= 0)%Q with
    | Gt => PosInfinity
    | Lt => NegInfinity
    | Eq => NaN
    end
  else Finite (n / d).

(** [v * k] for a finite [k] above zero. *)
Definition jsTimes (v : JsNumber) (k : Q) : JsNumber :=
  match v with
  | Finite q => Finite (q * k)
  | other => other
  end.

(** [Math.min] and [Math.max] of two numbers: [NaN] if one of them is. *)
Definition mathMin (a b : JsNumber) : JsNumber :=
  match a, b with
  | NaN, _ | _, NaN => NaN
  | NegInfinity, _ | _, NegInfinity => NegInfinity
  | PosInfinity, other | other, PosInfinity => other
  | Finite p, Finite q => Finite (Qmin p q)
  end.

Definition mathMax (a b : JsNumber) : JsNumber :=
  match a, b with
  | NaN, _ | _, NaN => NaN
  | PosInfinity, _ | _, PosInfinity => PosInfinity
  | NegInfinity, other | other, NegInfinity => other
  | Finite p, Finite q => Finite (Qmax p q)
  end.

(** [getCoords]: client coordinates to percentage; [rect] is [None] when
    [svgRef.current] is not set. *)
Definition getCoords (rect : option Rect) (clientX clientY : Q) : Point :=
  match rect with
  | None => {| px := Finite 0; py := Finite 0 |}
  | Some rect =>
      {| px := jsTimes (jsDivide (clientX - left rect) (width rect)) 100;
         py := jsTimes (jsDivide (clientY - top rect) (height rect)) 100 |}
  end%Q.

(** [handleSvgClick]; [targetIsSvg] is [e.target.tagName === 'svg']. *)
Definition handleSvgClick
    (app : AppState) (cv : CanvasState)
    (rect : option Rect) (clientX clientY : Q) (targetIsSvg : bool)
    : AppState * CanvasState :=
  match mode app with
  | PERFORMANCE => (app, cv)
  | EDIT =>
    if truthy (selectedShapeId app) && negb (isDrawing cv) && targetIsSvg then
      (setSelectedShapeId app None, cv)
    else if negb (isDrawing cv) && negb (truthy (selectedShapeId app)) then
      (app, {| drawingPoints := [Some (getCoords rect clientX clientY)];
               isDrawing := true;
               draggedPointIndex := draggedPointIndex cv |})
    else if isDrawing cv then
      (app, {| drawingPoints :=
                 drawingPoints cv ++ [Some (getCoords rect clientX clientY)];
               isDrawing := isDrawing cv;
               draggedPointIndex := draggedPointIndex cv |})
    else (app, cv)
  end.

(** [finishDrawing]; [onNewShapePoints] is [App.handleNewShape].
<<
    if (drawingPoints.length >= 3) {
      onNewShapePoints(drawingPoints);
    }
    setDrawingPoints([]);
    setIsDrawing(false);
>> *)
Definition finishDrawing
    (app : AppState) (cv : CanvasState) (uuid : string)
    : AppState * CanvasState :=
  let app' :=
    if (3 <=? length (drawingPoints cv))%nat
    then handleNewShape app uuid (drawingPoints cv)
    else app in
  (app', {| drawingPoints := [];
            isDrawing := false;
            draggedPointIndex := draggedPointIndex cv |}).

(** [handleKeyDown]; [key] is [e.key]. *)
Definition handleKeyDown
    (app : AppState) (cv : CanvasState) (key : string) (uuid : string)
    : AppState * CanvasState :=
  match mode app with
  | PERFORMANCE => (app, cv)
  | EDIT =>
    let '(app1, cv1) :=
      if String.eqb key "Enter" && isDrawing cv
      then finishDrawing app cv uuid
      else (app, cv) in
    if String.eqb key "Escape" then
      if isDrawing cv then
        (app1, {| drawingPoints := [];
                  isDrawing := false;
                  draggedPointIndex := draggedPointIndex cv1 |})
      else (setSelectedShapeId app1 None, cv1)
    else (app1, cv1)
  end.

(** [arr[i] = v] on a copy of an array: inside the array the element is
    replaced; past the end the array grows, the indices in between
    staying holes. *)
Definition arraySet {A} (arr : list (option A)) (i : nat) (v : A)
    : list (option A) :=
  if (i <? length arr)%nat then <[ i := Some v ]> arr
  else arr ++ replicate (i - length arr) None ++ [Some v].

(** [Math.max(0, Math.min(100, v))]. *)
Definition clamp (v : JsNumber) : JsNumber :=
  mathMax (Finite 0) (mathMin (Finite 100) v).

(** The shape [handleWindowMouseMove] hands to [onShapeUpdate], if it
    gets that far; [idx] is the non-null [draggedPointIndex] of the effect
    that installed the listener. *)
Definition draggedShape
    (app : AppState) (idx : nat)
    (rect : option Rect) (clientX clientY : Q) : option Shape :=
  if negb (truthy (selectedShapeId app)) then None
  else
    match List.find (fun s => bool_decide (Some (shape_id s) = selectedShapeId app))
                    (shapes app) with
    | None => None
    | Some shape =>
        let point := getCoords rect clientX clientY in
        let point := {| px := clamp (px point); py := clamp (py point) |} in
        let newPoints := arraySet (points shape) idx point in
        Some {| shape_id := shape_id shape; name := name shape;
                points := newPoints;
                channel := channel shape; noteStart := noteStart shape;
                noteEnd := noteEnd shape; color := color shape;
                velocitySensitive := velocitySensitive shape;
                baseOpacity := baseOpacity shape |}
    end.

(** [handleWindowMouseMove]; [onShapeUpdate] is [App.updateShape]. *)
Definition handleWindowMouseMove
    (app : AppState) (idx : nat)
    (rect : option Rect) (clientX clientY : Q) : AppState :=
  match draggedShape app idx rect clientX clientY with
  | Some updated => updateShape app updated
  | None => app
  end.

(** [handleWindowMouseUp]. *)
Definition handleWindowMouseUp (cv : CanvasState) : CanvasState :=
  {| drawingPoints := drawingPoints cv;
     isDrawing := isDrawing cv;
     draggedPointIndex := None |}.

(** ** [isShapeActive] *)

(** The two locals of [isShapeActive]; the function returns them as
    [{ active: isActive, velocity: maxVelocity }]. *)
Record Scan := mkScan { isActive : bool; maxVelocity : Z }.

(** The body shared by both branches:
<<
    if (activeNotes.has(key)) {
      isActive = true;
      maxVelocity = Math.max(maxVelocity, activeNotes.get(key)!.velocity);
    }
>> *)
Definition probe (activeNotes : ActiveNotesMap) (key : string) (st : Scan) : Scan :=
  match activeNotes !! key with
  | Some entry =>
      {| isActive := true;
         maxVelocity := Z.max (maxVelocity st) (velocity entry) |}
  | None => st
  end.

(** [for (let ch = ...; ch <= 16; ch++)], from the current [ch]. *)
Fixpoint channelLoop
    (fuel : nat) (activeNotes : ActiveNotesMap) (note ch : Z) (st : Scan) : Scan :=
  match fuel with
  | O => st
  | S fuel' =>
      if ch <=? 16 then
        channelLoop fuel' activeNotes note (ch + 1)
          (probe activeNotes (getNoteKey ch (Some note)) st)
      else st
  end.

(** The body of the loop over notes. *)
Definition noteBody
    (shape : Shape) (activeNotes : ActiveNotesMap) (note : Z) (st : Scan) : Scan :=
  if channel shape =? 0 then
    channelLoop 16 activeNotes note 1 st
  else
    probe activeNotes (getNoteKey (channel shape) (Some note)) st.

(** [for (let note = ...; note <= shape.noteEnd; note++)], from the
    current [note]. *)
Fixpoint noteLoop
    (fuel : nat) (shape : Shape) (activeNotes : ActiveNotesMap)
    (note : Z) (st : Scan) : Scan :=
  match fuel with
  | O => st
  | S fuel' =>
      if note <=? noteEnd shape then
        noteLoop fuel' shape activeNotes (note + 1)
          (noteBody shape activeNotes note st)
      else st
  end.

(** [isShapeActive]. The fuel is the number of notes from [noteStart] to
    [noteEnd]; [noteLoop_fuel] shows that the loop has left through its
    guard by then. *)
Definition isShapeActive (shape : Shape) (activeNotes : ActiveNotesMap) : Scan :=
  noteLoop (Z.to_nat (noteEnd shape - noteStart shape + 1))
    shape activeNotes (noteStart shape)
    {| isActive := false; maxVelocity := 0 |}.

(** The [fillOpacity] of a shape's polygon:
<<
    let opacity = 0;
    if (active) {
      opacity = shape.velocitySensitive
        ? (velocity / 127) * shape.baseOpacity
        : shape.baseOpacity;
    } else if (mode === AppMode.EDIT) {
       opacity = 0.2;
    }
>> *)
Definition fillOpacity
    (mode : AppMode) (shape : Shape) (activeNotes : ActiveNotesMap) : Q :=
  let r := isShapeActive shape activeNotes in
  if isActive r then
    if velocitySensitive shape
    then ((inject_Z (maxVelocity r) / 127) * baseOpacity shape)%Q
    else baseOpacity shape
  else
    match mode with
    | EDIT => 0.2%Q
    | PERFORMANCE => 0%Q
    end.

(** The [onClick] of a shape's group. In EDIT mode it selects the shape
    and stops the event; otherwise the event goes on to the [onClick] of
    the surface, with the polygon as target.
<<
    if (mode === AppMode.EDIT) {
      e.stopPropagation();
      onShapeSelect(shape.id);
    }
>> *)
Definition handleShapeClick
    (app : AppState) (cv : CanvasState) (id : string)
    (rect : option Rect) (clientX clientY : Q) : AppState * CanvasState :=
  match mode app with
  | EDIT => (setSelectedShapeId app (Some id), cv)
  | PERFORMANCE => handleSvgClick app cv rect clientX clientY false
  end.

(** The [onMouseDown] of the handle of vertex [i]:
    [setDraggedPointIndex(i)]. *)
Definition handleHandleMouseDown (cv : CanvasState) (i : nat) : CanvasState :=
  {| drawingPoints := drawingPoints cv;
     isDrawing := isDrawing cv;
     draggedPointIndex := Some i |}.

(** A [mousemove] on the window: the listener is installed only while
    [draggedPointIndex] is not [null]. *)
Definition windowMouseMove
    (app : AppState) (cv : CanvasState)
    (rect : option Rect) (clientX clientY : Q) : AppState :=
  match draggedPointIndex cv with
  | Some idx => handleWindowMouseMove app idx rect clientX clientY
  | None => app
  end.

End ProjectionCanvas.

Import ProjectionCanvas.

(* ===================================================================== *)
(** * Vocabulary of the statements *)
(* ===================================================================== *)

(** Decimal digits, to describe the strings [getNoteKey] builds. *)
Definition is_digit (c : Ascii.ascii) : bool :=
  (48 <=? Ascii.nat_of_ascii c)%nat && (Ascii.nat_of_ascii c <=? 57)%nat.

Fixpoint all_digits (s : string) : bool :=
  match s with
  | EmptyString => true
  | String c s' => is_digit c && all_digits s'
  end.

(** The byte of a number in 0..255, and the three bytes of a channel
    message: status nibble and channel in the first byte, then the two
    data bytes. *)
Definition byteOf (z : Z) : byte := default x00 (Byte.of_N (Z.to_N z)).

Definition noteMessage (command c n v : Z) : list byte :=
  [byteOf (command * 16 + (c - 1)); byteOf n; byteOf v].

(** An incoming event: [event.data], and the clock value the handler
    reads while it processes the event. *)
Definition MidiEvent : Type := list byte * Z.

Definition eventKey (ev : MidiEvent) : string :=
  getNoteKey (msg_channel (parseMidiMessage ev.1)) (msg_note (parseMidiMessage ev.1)).

(** The store after a sequence of events, starting from the empty map
    [activeNotesRef] is created with. *)
Definition replay (events : list MidiEvent) : ActiveNotesMap :=
  foldl (fun store ev => handleMidiMessage store ev.1 ev.2) ∅ events.

(** Note-off is command 8, note-on is command 9. *)
Definition isNoteEvent (ev : MidiEvent) : bool :=
  (msg_command (parseMidiMessage ev.1) =? 8) ||
  (msg_command (parseMidiMessage ev.1) =? 9).

(** A note-on with intensity above zero. *)
Definition isSoundingNoteOn (ev : MidiEvent) : bool :=
  (msg_command (parseMidiMessage ev.1) =? 9) &&
  (0 <? msg_velocity (parseMidiMessage ev.1)).

(** The event is about the pair [(c, n)]. *)
Definition concerns (c : Z) (n : option Z) (ev : MidiEvent) : Prop :=
  msg_channel (parseMidiMessage ev.1) = c ∧ msg_note (parseMidiMessage ev.1) = n.

#[global] Instance concerns_dec c n ev : Decision (concerns c n ev).
Proof. unfold concerns. apply _. Defined.

(** The last event of the sequence that is about the pair [(c, n)]. *)
Definition lastEventFor (c : Z) (n : option Z) (events : list MidiEvent)
    : option MidiEvent :=
  last (filter (concerns c n) events).

(** The pairs "whose last event was a note-on with intensity > 0". *)
Definition sounding (c : Z) (n : option Z) (events : list MidiEvent) : Prop :=
  ∃ ev, lastEventFor c n events = Some ev ∧ isSoundingNoteOn ev = true.

(** A store with one entry, channel 1 note 60 at velocity 100, for the
    examples. *)
Definition oneNoteStore : ActiveNotesMap := <[ "1-60" := mkActiveNote 100 3 ]> ∅.

(** The pair [(c, n)] is one the shape listens to: the note is in the
    shape's range and the channel passes its filter. *)
Definition listensTo (shape : Shape) (c n : Z) : Prop :=
  noteStart shape ≤ n ≤ noteEnd shape ∧
  if decide (channel shape = 0) then 1 ≤ c ≤ 16 else c = channel shape.

(** The keys [isShapeActive] looks up, in the order it looks them up:
    for one note from channel [ch] on, for one note, and for all notes
    from [note] on. *)
Definition channelKeys (note ch : Z) : list string :=
  (λ c, getNoteKey c (Some note)) <$> seqZ ch (17 - ch).

Definition noteKeys (shape : Shape) (note : Z) : list string :=
  if channel shape =? 0 then channelKeys note 1
  else [getNoteKey (channel shape) (Some note)].

Definition scanKeys (shape : Shape) (note : Z) : list string :=
  seqZ note (noteEnd shape - note + 1) ≫= noteKeys shape.

(** The scan as a fold of [probe] over the keys looked up. *)
Definition probeAll (activeNotes : ActiveNotesMap) (st : Scan) (keys : list string)
    : Scan :=
  foldl (λ st key, probe activeNotes key st) st keys.

(** A snapshot whose intensities are not negative, as those the handler
    stores. *)
Definition nonNegative (activeNotes : ActiveNotesMap) : Prop :=
  ∀ key entry, activeNotes !! key = Some entry → 0 ≤ velocity entry.

(** Shapes and states for the examples: the shape [handleNewShape]
    creates, made velocity sensitive, and a session of two points. *)
Definition middleC : Shape :=
  mkShape "id" "Shape 1" [] 0 60 60 "#00ffcc" true 1.

Definition noShapes : AppState := mkApp [] None EDIT.

Definition twoPoints : CanvasState :=
  mkCanvas [Some (mkPoint (Finite 10) (Finite 10));
            Some (mkPoint (Finite 20) (Finite 10))] true None.

Definition threePoints : CanvasState :=
  mkCanvas [Some (mkPoint (Finite 10) (Finite 10));
            Some (mkPoint (Finite 20) (Finite 10));
            Some (mkPoint (Finite 15) (Finite 30))]
           true None.

(** A selected triangle on a surface of 200 by 100 pixels. *)
Definition triangle : Shape :=
  mkShape "s1" "Shape 1"
          [Some (mkPoint (Finite 10) (Finite 10));
           Some (mkPoint (Finite 20) (Finite 10));
           Some (mkPoint (Finite 15) (Finite 30))]
          0 60 60 "#00ffcc" false 1.

Definition oneTriangle : AppState := mkApp [triangle] (Some "s1") EDIT.

Definition surface : option Rect := Some (mkRect 0 0 200 100).

(** A coordinate within the surface: a finite number in 0..100. *)
Definition within100 (v : JsNumber) : Prop :=
  match v with
  | Finite q => (0 <= q <= 100)%Q
  | _ => False
  end.

(** The same number: equal rationals, or the same special value. *)
Definition sameNumber (v w : JsNumber) : Prop :=
  match v, w with
  | Finite p, Finite q => (p == q)%Q
  | PosInfinity, PosInfinity | NegInfinity, NegInfinity | NaN, NaN => True
  | _, _ => False
  end.

(** A bounding box of no width and no height, at the origin. *)
Definition emptyBox : option Rect := Some (mkRect 0 0 0 0).


(** ** Vocabulary of the further properties *)

(** The last note-on or note-off of the sequence that is about the pair
    [(c, n)], other commands being passed over; and the entry such an
    event leaves in the store. *)
Definition lastNoteEventFor (c : Z) (n : option Z) (events : list MidiEvent)
    : option MidiEvent :=
  last (filter (λ ev, concerns c n ev ∧ isNoteEvent ev = true) events).

Definition entryOf (ev : MidiEvent) : option ActiveNote :=
  if isSoundingNoteOn ev
  then Some (mkActiveNote (msg_velocity (parseMidiMessage ev.1)) ev.2)
  else None.

(** Two stores with the same keys and, key by key, the same velocity;
    the timestamps may differ. *)
Definition sameVelocities (notes1 notes2 : ActiveNotesMap) : Prop :=
  ∀ key, velocity <$> (notes1 !! key) = velocity <$> (notes2 !! key).

(** All the keys a message can have that carries a note byte. *)
Definition allKeys : list string :=
  c ← seqZ 1 16; (λ n, getNoteKey c (Some n)) <$> seqZ 0 256.

(** The shape list is well formed: every shape is a polygon, and the
    selection, if there is one, is the id of a shape of the list. *)
Definition polygons (shapes : list Shape) : Prop :=
  Forall (λ s, (3 ≤ length (points s))%nat) shapes.

Definition selectionListed (app : AppState) : Prop :=
  ∀ id, selectedShapeId app = Some id → ∃ s, s ∈ shapes app ∧ shape_id s = id.

Definition wellFormed (app : AppState) : Prop :=
  polygons (shapes app) ∧ selectionListed app.

(** The draw session is consistent: there are points exactly while
    drawing, and none of them is a hole. *)
Definition sessionOk (cv : CanvasState) : Prop :=
  (drawingPoints cv = [] ↔ isDrawing cv = false) ∧
  Forall is_Some (drawingPoints cv).

(** Clicks on the background of the surface, one after the other. *)
Definition clickAll (rect : option Rect) (clicks : list (Q * Q))
    (st : AppState * CanvasState) : AppState * CanvasState :=
  foldl (λ st xy, handleSvgClick st.1 st.2 rect xy.1 xy.2 true) st clicks.

(** Three clicks, for the examples. *)
Definition threeClicks : list (Q * Q) := [(20, 10); (40, 10); (30, 60)]%Q.

(** The idle canvas. *)
Definition idle : CanvasState := mkCanvas [] false None.

(* ===================================================================== *)
(** * Properties of the event decoder *)
(* ===================================================================== *)

Ltac parse_unfold :=
  unfold parseMidiMessage;
  cbv beta iota zeta delta [msg_command msg_channel msg_note msg_velocity].

Section Decoder.

Lemma byteAt_range (data : list byte) (i : nat) (v : Z) :
  byteAt data i = Some v → 0 ≤ v ≤ 255.
Proof.
  unfold byteAt. intros H.
  destruct (data !! i) as [b|]; simplify_eq/=.
  pose proof (Byte.to_N_bounded b). lia.
Qed.

Lemma byteAt_is_Some (data : list byte) (i : nat) :
  (i < length data)%nat → is_Some (byteAt data i).
Proof.
  intros Hi. unfold byteAt.
  destruct (lookup_lt_is_Some_2 data i Hi) as [b ->]. by eexists.
Qed.

Lemma byteAt_None (data : list byte) (i : nat) :
  (length data ≤ i)%nat → byteAt data i = None.
Proof.
  intros Hi. unfold byteAt. by rewrite (lookup_ge_None_2 data i Hi).
Qed.

Lemma toInt32_byte_range (data : list byte) (i : nat) :
  0 ≤ toInt32 (byteAt data i) ≤ 255.
Proof.
  unfold toInt32. destruct (byteAt data i) as [v|] eqn:E; simpl; [|lia].
  eauto using byteAt_range.
Qed.

Lemma high_nibble (v : Z) : Z.shiftr v 4 = Z.div v 16.
Proof. by rewrite Z.shiftr_div_pow2. Qed.

Lemma low_nibble (v : Z) : Z.land v 15 = Z.modulo v 16.
Proof. change 15 with (Z.ones 4). by rewrite Z.land_ones. Qed.

(** Whatever the message, the channel is in 1..16 and the command in 0..15. *)
Lemma parse_channel_range (data : list byte) :
  1 ≤ msg_channel (parseMidiMessage data) ≤ 16.
Proof.
  parse_unfold. rewrite low_nibble.
  pose proof (Z.mod_pos_bound (toInt32 (byteAt data 0)) 16). lia.
Qed.

Lemma parse_command_range (data : list byte) :
  0 ≤ msg_command (parseMidiMessage data) ≤ 15.
Proof.
  parse_unfold. rewrite high_nibble.
  pose proof (toInt32_byte_range data 0) as [??].
  split; [apply Z.div_pos; lia|].
  apply Z.lt_succ_r, Z.div_lt_upper_bound; lia.
Qed.

Lemma parse_velocity_range (data : list byte) :
  0 ≤ msg_velocity (parseMidiMessage data) ≤ 255.
Proof.
  parse_unfold. case_decide; [|lia]. apply (toInt32_byte_range data 2).
Qed.

Lemma byteOf_value (z : Z) : 0 ≤ z ≤ 255 → Z.of_N (Byte.to_N (byteOf z)) = z.
Proof.
  intros Hz. unfold byteOf.
  destruct (Byte.of_N (Z.to_N z)) as [b|] eqn:E; simpl.
  - apply Byte.to_of_N in E. lia.
  - apply Byte.of_N_None_iff in E. lia.
Qed.

(** Every command, channel, note and velocity is the decoding of a
    message: the decoder is onto, so the statements below that speak of
    a message for a pair [(c, n)] speak of every pair. *)
Lemma noteMessage_decodes (command c n v : Z) :
  0 ≤ command ≤ 15 → 1 ≤ c ≤ 16 → 0 ≤ n ≤ 255 → 0 ≤ v ≤ 255 →
  parseMidiMessage (noteMessage command c n v) = mkParsed command c (Some n) v.
Proof.
  intros Hcmd Hc Hn Hv. unfold parseMidiMessage, noteMessage, byteAt.
  cbn [lookup list_lookup fmap option_fmap option_map length toInt32 default].
  rewrite !byteOf_value by lia.
  rewrite high_nibble, low_nibble. unfold id.
  rewrite Z.div_add_l, Z.div_small by lia.
  rewrite (Z.add_comm (command * 16)), Z.mod_add, Z.mod_small by lia.
  rewrite decide_True by lia.
  f_equal; lia.
Qed.

End Decoder.

(** C5. On every message of at least two bytes the decoder returns: as
    command the high nibble of byte 0, which is in 0..15; as channel the
    low nibble of byte 0 plus one, which is in 1..16; as note byte 1; as
    velocity byte 2 when the message has a third byte and 0 otherwise.
    The decoder is a function of the bytes alone, and both bytes it needs
    are there, so the result has no [undefined] field. *)
Theorem parseMidiMessage_decodes (data : list byte) :
  (2 ≤ length data)%nat →
  ∃ b0 b1 : Z,
    byteAt data 0 = Some b0 ∧ byteAt data 1 = Some b1 ∧
    msg_command (parseMidiMessage data) = Z.div b0 16 ∧
    0 ≤ msg_command (parseMidiMessage data) ≤ 15 ∧
    msg_channel (parseMidiMessage data) = Z.modulo b0 16 + 1 ∧
    1 ≤ msg_channel (parseMidiMessage data) ≤ 16 ∧
    msg_note (parseMidiMessage data) = Some b1 ∧
    msg_velocity (parseMidiMessage data) =
      match byteAt data 2 with Some b2 => b2 | None => 0 end.
Proof.
  intros Hlen.
  destruct (byteAt_is_Some data 0) as [b0 E0]; [lia|].
  destruct (byteAt_is_Some data 1) as [b1 E1]; [lia|].
  exists b0, b1.
  split_and!.
  - done.
  - done.
  - parse_unfold. by rewrite E0, high_nibble.
  - apply parse_command_range.
  - apply parse_command_range.
  - parse_unfold. by rewrite E0, low_nibble.
  - apply parse_channel_range.
  - apply parse_channel_range.
  - done.
  - parse_unfold. case_decide as Hl.
    + by destruct (byteAt data 2).
    + by rewrite byteAt_None by lia.
Qed.

Lemma parseMidiMessage_decodes_witness :
  ∃ b0 b1 : Z,
    byteAt [x93; x3c; x64] 0 = Some b0 ∧ byteAt [x93; x3c; x64] 1 = Some b1 ∧
    msg_command (parseMidiMessage [x93; x3c; x64]) = Z.div b0 16 ∧
    0 ≤ msg_command (parseMidiMessage [x93; x3c; x64]) ≤ 15 ∧
    msg_channel (parseMidiMessage [x93; x3c; x64]) = Z.modulo b0 16 + 1 ∧
    1 ≤ msg_channel (parseMidiMessage [x93; x3c; x64]) ≤ 16 ∧
    msg_note (parseMidiMessage [x93; x3c; x64]) = Some b1 ∧
    msg_velocity (parseMidiMessage [x93; x3c; x64]) =
      match byteAt [x93; x3c; x64] 2 with Some b2 => b2 | None => 0 end.
Proof. apply (parseMidiMessage_decodes [x93; x3c; x64]). simpl. lia. Defined.

Example parse_note_on : parseMidiMessage [x93; x3c; x64] = mkParsed 9 4 (Some 60) 100.
Proof. reflexivity. Qed.

Example parse_two_bytes : parseMidiMessage [x80; x3c] = mkParsed 8 1 (Some 60) 0.
Proof. reflexivity. Qed.

(* ===================================================================== *)
(** * The composite key *)
(* ===================================================================== *)

Section NoteKey.

Lemma app_cons (c : Ascii.ascii) (s t : string) :
  String c s +:+ t = String c (s +:+ t).
Proof. reflexivity. Qed.

Lemma app_nil (t : string) : "" +:+ t = t.
Proof. reflexivity. Qed.

Lemma app_assoc_string (s t u : string) : (s +:+ t) +:+ u = s +:+ (t +:+ u).
Proof. induction s as [|c s IH]; [done|]. by rewrite !app_cons, IH. Qed.

Lemma all_digits_app (s t : string) :
  all_digits (s +:+ t) = all_digits s && all_digits t.
Proof.
  induction s as [|c s IH]; [done|].
  rewrite app_cons. simpl. by rewrite IH, andb_assoc.
Qed.

Lemma pretty_N_char_digit (x : N) : is_digit (pretty_N_char x) = true.
Proof. unfold pretty_N_char. by repeat case_match. Qed.

(** The digits [pretty_N_go] puts in front of its accumulator. *)
Lemma pretty_N_go_digits (x : N) (s : string) :
  ∃ d, pretty_N_go x s = d +:+ s ∧ all_digits d = true ∧ ((0 < x)%N → d ≠ "").
Proof.
  revert s. induction (N.lt_wf_0 x) as [x _ IH]; intros s.
  destruct (decide (x = 0%N)) as [->|Hx].
  - exists "". rewrite pretty_N_go_0. split_and!; [done|done|lia].
  - rewrite pretty_N_go_step by lia.
    destruct (IH (x `div` 10)%N) with (s := String (pretty_N_char (x `mod` 10)%N) s)
      as (d & -> & Hd & _).
    { apply N.div_lt; lia. }
    exists (d +:+ String (pretty_N_char (x `mod` 10)%N) "").
    split_and!.
    + by rewrite app_assoc_string.
    + rewrite all_digits_app, Hd. simpl. by rewrite pretty_N_char_digit.
    + intros _. by destruct d.
Qed.

Lemma pretty_N_digits (x : N) : all_digits (pretty x) = true ∧ pretty x ≠ "".
Proof.
  unfold pretty, pretty_N. case_decide as Hx; [done|].
  destruct (pretty_N_go_digits x "") as (d & -> & Hd & Hne).
  assert (d +:+ "" = d) as ->.
  { clear. induction d as [|c d IH]; [done|]. by rewrite app_cons, IH. }
  split; [done|]. apply Hne. lia.
Qed.

(** A printed integer is a non-empty run of digits, after a minus sign
    when it is negative. *)
Lemma pretty_Z_shape (z : Z) :
  ∃ d, all_digits d = true ∧ d ≠ "" ∧
       (pretty z = d ∨ pretty z = String "-"%char d).
Proof.
  destruct z as [|p|p]; unfold pretty, pretty_Z.
  - exists "0". by split_and!; [..|left].
  - exists (pretty p). destruct (pretty_N_digits (N.pos p)).
    by split_and!; [..|left].
  - exists (pretty p). destruct (pretty_N_digits (N.pos p)).
    by split_and!; [..|right].
Qed.

(** Two runs of digits that are followed by a dash end at the same place. *)
Lemma digits_dash_inj (d1 d2 r1 r2 : string) :
  all_digits d1 = true → all_digits d2 = true →
  d1 +:+ String "-"%char r1 = d2 +:+ String "-"%char r2 →
  d1 = d2 ∧ r1 = r2.
Proof.
  revert d2. induction d1 as [|c1 d1 IH]; intros [|c2 d2] H1 H2 E;
    rewrite ?app_cons, ?app_nil in E; simplify_eq/=.
  - done.
  - apply andb_prop in H1 as [_ H1]. apply andb_prop in H2 as [_ H2].
    destruct (IH d2 H1 H2) as [-> ->]; done.
Qed.

Lemma signed_digits_dash_inj (r1 r2 : string) (c1 c2 : Z) :
  pretty c1 +:+ String "-"%char r1 = pretty c2 +:+ String "-"%char r2 →
  c1 = c2 ∧ r1 = r2.
Proof.
  destruct (pretty_Z_shape c1) as (d1 & D1 & N1 & S1).
  destruct (pretty_Z_shape c2) as (d2 & D2 & N2 & S2).
  intros E.
  assert (pretty c1 = pretty c2 ∧ r1 = r2) as [Hc Hr].
  { destruct S1 as [S1|S1], S2 as [S2|S2]; rewrite S1, S2 in E |- *.
    - destruct (digits_dash_inj _ _ _ _ D1 D2 E) as [-> ->]; done.
    - destruct d1 as [|a d1]; [done|].
      rewrite !app_cons in E. simplify_eq/=.
    - destruct d2 as [|a d2]; [done|].
      rewrite !app_cons in E. simplify_eq/=.
    - rewrite !app_cons in E. simplify_eq/=.
      destruct (digits_dash_inj _ _ _ _ D1 D2 E) as [-> ->]; done. }
  split; [|done]. by apply (inj pretty).
Qed.

Lemma numberToString_inj (n1 n2 : option Z) :
  numberToString n1 = numberToString n2 → n1 = n2.
Proof.
  destruct n1 as [z1|], n2 as [z2|]; simpl; intros E.
  - f_equal. by apply (inj pretty).
  - destruct (pretty_Z_shape z1) as (d & D & N & [S|S]);
      rewrite S in E; subst; done.
  - destruct (pretty_Z_shape z2) as (d & D & N & [S|S]);
      rewrite S in E; subst; done.
  - done.
Qed.

(** [getNoteKey] is injective, on all integers and on [undefined]. *)
Lemma getNoteKey_inj (c1 c2 : Z) (n1 n2 : option Z) :
  getNoteKey c1 n1 = getNoteKey c2 n2 → c1 = c2 ∧ n1 = n2.
Proof.
  unfold getNoteKey. intros E.
  change ("-" +:+ numberToString n1) with (String "-"%char (numberToString n1)) in E.
  change ("-" +:+ numberToString n2) with (String "-"%char (numberToString n2)) in E.
  apply signed_digits_dash_inj in E as [-> E].
  split; [done|]. by apply numberToString_inj.
Qed.

Lemma getNoteKey_ne (c1 c2 : Z) (n1 n2 : option Z) :
  (c1, n1) ≠ (c2, n2) → getNoteKey c1 n1 ≠ getNoteKey c2 n2.
Proof. intros Hne E. apply getNoteKey_inj in E as [-> ->]. done. Qed.

End NoteKey.

(* ===================================================================== *)
(** * Properties of the activation store *)
(* ===================================================================== *)

Section Store.

Implicit Types (current : ActiveNotesMap) (data : list byte) (now : Z).

(** The three ways through [handleMidiMessage]. *)
Lemma handle_note_on current data now :
  msg_command (parseMidiMessage data) = 9 →
  0 < msg_velocity (parseMidiMessage data) →
  handleMidiMessage current data now =
    <[ eventKey (data, now) :=
         mkActiveNote (msg_velocity (parseMidiMessage data)) now ]> current.
Proof.
  intros Hc Hv. unfold handleMidiMessage, eventKey.
  cbv zeta. rewrite Hc. simpl fst.
  by rewrite (proj2 (Z.ltb_lt _ _) Hv).
Qed.

Lemma handle_note_off current data now :
  msg_command (parseMidiMessage data) = 8 ∨
  (msg_command (parseMidiMessage data) = 9 ∧
   msg_velocity (parseMidiMessage data) = 0) →
  handleMidiMessage current data now = delete (eventKey (data, now)) current.
Proof.
  intros H. unfold handleMidiMessage, eventKey. cbv zeta. simpl fst.
  destruct H as [Hc|[Hc Hv]]; rewrite Hc; [done|]. by rewrite Hv.
Qed.

Lemma handle_other current data now :
  msg_command (parseMidiMessage data) ≠ 8 →
  msg_command (parseMidiMessage data) ≠ 9 →
  handleMidiMessage current data now = current.
Proof.
  intros H8 H9. unfold handleMidiMessage. cbv zeta.
  apply Z.eqb_neq in H8, H9. by rewrite H8, H9.
Qed.

(** Every message takes one of the three ways. *)
Lemma handle_cases data :
  (msg_command (parseMidiMessage data) = 9 ∧
   0 < msg_velocity (parseMidiMessage data)) ∨
  (msg_command (parseMidiMessage data) = 8 ∨
   (msg_command (parseMidiMessage data) = 9 ∧
    msg_velocity (parseMidiMessage data) = 0)) ∨
  (msg_command (parseMidiMessage data) ≠ 8 ∧
   msg_command (parseMidiMessage data) ≠ 9).
Proof. pose proof (parse_velocity_range data). lia. Qed.

(** The handler touches no key but the event's own. *)
Lemma handle_lookup_other current data now (key : string) :
  key ≠ eventKey (data, now) →
  handleMidiMessage current data now !! key = current !! key.
Proof.
  intros Hne.
  destruct (handle_cases data) as [[??]|[?|[??]]].
  - rewrite handle_note_on by done. by rewrite lookup_insert_ne.
  - rewrite handle_note_off by done. by rewrite lookup_delete_ne.
  - by rewrite handle_other.
Qed.

End Store.

(** C10. An event whose command nibble is neither 8 nor 9 leaves the
    active-notes map as it was: the map the handler stores back is the
    one it read. *)
Theorem other_commands_leave_store (current : ActiveNotesMap)
    (data : list byte) (now : Z) :
  msg_command (parseMidiMessage data) ≠ 8 →
  msg_command (parseMidiMessage data) ≠ 9 →
  handleMidiMessage current data now = current.
Proof. apply handle_other. Qed.

Lemma other_commands_leave_store_witness :
  handleMidiMessage oneNoteStore [xb0; x3c; x64] 7
  = oneNoteStore.
Proof.
  apply (other_commands_leave_store _ [xb0; x3c; x64] 7); vm_compute; discriminate.
Defined.

(** C8. A note-off for a pair that has no entry leaves the store as it
    was; the handler has no failing path, it returns the map, and the
    next event is handled from it. By [noteMessage_decodes] there is
    such a message for every channel 1..16 and every note byte. *)
Theorem note_off_absent_noop (current : ActiveNotesMap)
    (data : list byte) (now : Z) (c : Z) (n : option Z) :
  msg_command (parseMidiMessage data) = 8 →
  msg_channel (parseMidiMessage data) = c →
  msg_note (parseMidiMessage data) = n →
  current !! getNoteKey c n = None →
  handleMidiMessage current data now = current.
Proof.
  intros Hc <- <- Habs.
  rewrite handle_note_off by auto.
  by apply delete_id.
Qed.

Lemma note_off_absent_noop_witness :
  handleMidiMessage oneNoteStore [x80; x3d; x00] 7
  = oneNoteStore.
Proof.
  apply (note_off_absent_noop _ [x80; x3d; x00] 7 1 (Some 61));
    vm_compute; reflexivity.
Defined.

(** C6. A note-on with intensity 0 for the pair [(c, n)] leaves the store
    in the state a note-off for [(c, n)] leaves it in, whatever the
    clock values, and in that state the pair has no entry. By
    [noteMessage_decodes] both messages exist for every channel 1..16
    and every note byte. *)
Theorem note_on_zero_is_note_off (current : ActiveNotesMap)
    (dataOn dataOff : list byte) (t t' : Z) (c : Z) (n : option Z) :
  msg_command (parseMidiMessage dataOn) = 9 →
  msg_velocity (parseMidiMessage dataOn) = 0 →
  msg_channel (parseMidiMessage dataOn) = c →
  msg_note (parseMidiMessage dataOn) = n →
  msg_command (parseMidiMessage dataOff) = 8 →
  msg_channel (parseMidiMessage dataOff) = c →
  msg_note (parseMidiMessage dataOff) = n →
  handleMidiMessage current dataOn t = handleMidiMessage current dataOff t' ∧
  handleMidiMessage current dataOn t !! getNoteKey c n = None.
Proof.
  intros Hc Hv Hch Hn Hc' Hch' Hn'.
  rewrite (handle_note_off current dataOn t) by auto.
  rewrite (handle_note_off current dataOff t') by auto.
  unfold eventKey; simpl fst. rewrite Hch, Hn, Hch', Hn'.
  split; [done|]. apply lookup_delete_eq.
Qed.

Lemma note_on_zero_is_note_off_witness :
  handleMidiMessage oneNoteStore [x90; x3c; x00] 7
  = handleMidiMessage oneNoteStore [x80; x3c; x40] 9 ∧
  handleMidiMessage oneNoteStore [x90; x3c; x00] 7
    !! getNoteKey 1 (Some 60) = None.
Proof.
  apply (note_on_zero_is_note_off _ [x90; x3c; x00] [x80; x3c; x40] 7 9 1 (Some 60));
    vm_compute; reflexivity.
Defined.

(** C9. The composite key is injective: two (channel, note) pairs with
    the same key are the same pair. This holds for all integers, so in
    particular for channels 1..16 and notes 0..127. As a consequence the
    handler, processing an event, leaves the entry of every other pair
    as it was. *)
Theorem getNoteKey_injective :
  (∀ c1 n1 c2 n2 : Z,
     getNoteKey c1 (Some n1) = getNoteKey c2 (Some n2) → c1 = c2 ∧ n1 = n2) ∧
  (∀ (current : ActiveNotesMap) (data : list byte) (now : Z) (c n : Z),
     (msg_channel (parseMidiMessage data), msg_note (parseMidiMessage data))
       ≠ (c, Some n) →
     handleMidiMessage current data now !! getNoteKey c (Some n)
       = current !! getNoteKey c (Some n)).
Proof.
  split.
  - intros c1 n1 c2 n2 E. apply getNoteKey_inj in E as [-> [= ->]]. done.
  - intros current data now c n Hne.
    apply handle_lookup_other. unfold eventKey; simpl fst.
    apply not_eq_sym, getNoteKey_ne. done.
Qed.

Lemma getNoteKey_injective_witness :
  (16 = 16 ∧ 127 = 127) ∧
  handleMidiMessage oneNoteStore [x90; x3c; x00] 7
    !! getNoteKey 16 (Some 0) = oneNoteStore !! getNoteKey 16 (Some 0).
Proof.
  split.
  - apply (proj1 getNoteKey_injective 16 127 16 127). reflexivity.
  - apply (proj2 getNoteKey_injective _ [x90; x3c; x00] 7 16 0).
    vm_compute. discriminate.
Defined.

Example key_digits_do_not_merge : getNoteKey 1 (Some 16) ≠ getNoteKey 11 (Some 6).
Proof. vm_compute. discriminate. Qed.

(* ===================================================================== *)
(** * Replaying a sequence of events *)
(* ===================================================================== *)

Section Replay.

Implicit Types (events : list MidiEvent) (ev : MidiEvent).

Lemma replay_snoc events ev :
  replay (events ++ [ev]) = handleMidiMessage (replay events) ev.1 ev.2.
Proof. unfold replay. by rewrite foldl_app. Qed.

Lemma lastEventFor_snoc c n events ev :
  lastEventFor c n (events ++ [ev]) =
    if decide (concerns c n ev) then Some ev else lastEventFor c n events.
Proof.
  unfold lastEventFor. rewrite filter_app.
  case_decide as Hc.
  - rewrite filter_cons_True by done. rewrite filter_nil. apply last_snoc.
  - rewrite filter_cons_False by done. by rewrite filter_nil, app_nil_r.
Qed.

(** Every key of the store is the key of a pair. *)
Lemma replay_keys events (key : string) :
  is_Some (replay events !! key) → ∃ c n, key = getNoteKey c n.
Proof.
  induction events as [|ev events IH] using rev_ind.
  - unfold replay; simpl. rewrite lookup_empty. by intros [? ?].
  - rewrite replay_snoc. destruct ev as [data now]; simpl.
    destruct (decide (key = eventKey (data, now))) as [->|Hne].
    + intros _. by eexists _, _.
    + by rewrite handle_lookup_other.
Qed.

(** Pair by pair: the entry is there exactly when the pair's last event
    was a note-on with intensity above zero. *)
Lemma replay_pair events (c : Z) (n : option Z) :
  Forall (λ ev, isNoteEvent ev = true) events →
  is_Some (replay events !! getNoteKey c n) ↔ sounding c n events.
Proof.
  induction events as [|ev events IH] using rev_ind; intros Hall.
  - unfold replay, sounding, lastEventFor; simpl. rewrite lookup_empty.
    split; [by intros [? ?]|by intros (? & ? & _)].
  - apply Forall_app in Hall as [Hall Hev]. rewrite Forall_singleton in Hev.
    rewrite replay_snoc. unfold sounding. rewrite lastEventFor_snoc.
    destruct ev as [data now]; simpl fst; simpl snd.
    case_decide as Hc.
    + destruct Hc as [Hch Hn]; simpl in Hch, Hn. subst c n.
      fold (eventKey (data, now)).
      destruct (handle_cases data) as [[H9 Hv]|[Hoff|[H8 H9]]].
      * rewrite handle_note_on by done. rewrite lookup_insert_eq.
        split; [|by eauto]. intros _. exists (data, now). split; [done|].
        unfold isSoundingNoteOn; simpl fst. rewrite H9.
        by rewrite (proj2 (Z.ltb_lt _ _) Hv).
      * rewrite handle_note_off by done. rewrite lookup_delete_eq.
        split; [by intros [? ?]|]. intros (ev & [= <-] & Hon).
        unfold isSoundingNoteOn in Hon; simpl fst in Hon.
        apply andb_prop in Hon as [Hc9 Hv].
        apply Z.eqb_eq in Hc9. apply Z.ltb_lt in Hv. lia.
      * unfold isNoteEvent in Hev; simpl fst in Hev.
        apply orb_prop in Hev as [?%Z.eqb_eq|?%Z.eqb_eq]; done.
    + rewrite handle_lookup_other.
      * apply IH, Hall.
      * unfold eventKey; simpl fst. apply getNoteKey_ne.
        intros [= -> ->]. by apply Hc.
Qed.

End Replay.

(** C3. Replay any finite sequence of note-on and note-off events, in
    order, into the empty store. The keys of the resulting store are
    exactly the keys of the (channel, note) pairs whose last event in the
    sequence was a note-on with intensity above zero; and, the key being
    injective, a pair has an entry exactly when its last event was such a
    note-on. *)
Theorem replay_entry_set (events : list MidiEvent) :
  Forall (λ ev, isNoteEvent ev = true) events →
  (∀ key : string,
     is_Some (replay events !! key) ↔
     ∃ c n, key = getNoteKey c n ∧ sounding c n events) ∧
  (∀ (c : Z) (n : option Z),
     is_Some (replay events !! getNoteKey c n) ↔ sounding c n events).
Proof.
  intros Hall. split.
  - intros key. split.
    + intros Hin. destruct (replay_keys events key Hin) as (c & n & ->).
      exists c, n. split; [done|]. by apply replay_pair.
    + intros (c & n & -> & Hs). by apply replay_pair.
  - intros c n. by apply replay_pair.
Qed.

Example replay_on_then_off :
  replay [([x90; x3c; x64], 1); ([x91; x3d; x50], 2); ([x80; x3c; x00], 3)]
  = <[ "2-61" := mkActiveNote 80 2 ]> ∅.
Proof. vm_compute. reflexivity. Qed.

Lemma replay_entry_set_witness :
  (∀ key : string,
     is_Some (replay [([x90; x3c; x64], 1); ([x91; x3d; x50], 2);
                      ([x80; x3c; x00], 3)] !! key) ↔
     ∃ c n, key = getNoteKey c n ∧
            sounding c n [([x90; x3c; x64], 1); ([x91; x3d; x50], 2);
                          ([x80; x3c; x00], 3)]) ∧
  (∀ (c : Z) (n : option Z),
     is_Some (replay [([x90; x3c; x64], 1); ([x91; x3d; x50], 2);
                      ([x80; x3c; x00], 3)] !! getNoteKey c n) ↔
     sounding c n [([x90; x3c; x64], 1); ([x91; x3d; x50], 2);
                   ([x80; x3c; x00], 3)]).
Proof.
  apply (replay_entry_set
           [([x90; x3c; x64], 1); ([x91; x3d; x50], 2); ([x80; x3c; x00], 3)]).
  repeat constructor.
Defined.

(** The intensities the handler stores are positive. *)
Lemma replay_positive (events : list MidiEvent) (key : string) (entry : ActiveNote) :
  replay events !! key = Some entry → 0 < velocity entry.
Proof.
  revert entry. induction events as [|[data now] events IH] using rev_ind; intros entry.
  - unfold replay; simpl. by rewrite lookup_empty.
  - rewrite replay_snoc; simpl.
    destruct (handle_cases data) as [[H9 Hv]|[Hoff|[H8 H9]]].
    + rewrite handle_note_on by done.
      destruct (decide (key = eventKey (data, now))) as [->|Hne].
      * rewrite lookup_insert_eq. by intros [= <-].
      * rewrite lookup_insert_ne by done. apply IH.
    + rewrite handle_note_off by done.
      destruct (decide (key = eventKey (data, now))) as [->|Hne].
      * by rewrite lookup_delete_eq.
      * rewrite lookup_delete_ne by done. apply IH.
    + rewrite handle_other by done. apply IH.
Qed.

Lemma replay_nonNegative (events : list MidiEvent) : nonNegative (replay events).
Proof. intros key entry H. apply replay_positive in H. lia. Qed.

(* ===================================================================== *)
(** * Properties of the matcher *)
(* ===================================================================== *)

Section Scan.

Variable activeNotes : ActiveNotesMap.

Implicit Types (st : Scan) (keys : list string) (shape : Shape).

Local Abbreviation probeAll := (probeAll activeNotes).

Lemma channelLoop_fuel (fuel : nat) (note ch : Z) st :
  (Z.to_nat (17 - ch) ≤ fuel)%nat →
  channelLoop fuel activeNotes note ch st = probeAll st (channelKeys note ch).
Proof.
  revert ch st. induction fuel as [|fuel IH]; intros ch st Hfuel; simpl.
  - unfold channelKeys. by rewrite seqZ_nil by lia.
  - unfold channelKeys. destruct (Z.leb_spec ch 16).
    + rewrite seqZ_cons by lia. rewrite IH by lia.
      unfold channelKeys, probeAll. simpl. do 3 f_equal; lia.
    + by rewrite seqZ_nil by lia.
Qed.

Lemma noteBody_keys shape (note : Z) st :
  noteBody shape activeNotes note st = probeAll st (noteKeys shape note).
Proof.
  unfold noteBody, noteKeys. destruct (channel shape =? 0); [|done].
  by apply channelLoop_fuel.
Qed.

(** With at least as much fuel as there are notes left, the loop over
    notes ends through its guard, having probed [scanKeys]. *)
Lemma noteLoop_fuel (fuel : nat) shape (note : Z) st :
  (Z.to_nat (noteEnd shape - note + 1) ≤ fuel)%nat →
  noteLoop fuel shape activeNotes note st = probeAll st (scanKeys shape note).
Proof.
  revert note st. induction fuel as [|fuel IH]; intros note st Hfuel; simpl.
  - unfold scanKeys. by rewrite seqZ_nil by lia.
  - unfold scanKeys. destruct (Z.leb_spec note (noteEnd shape)).
    + rewrite seqZ_cons by lia. rewrite bind_cons.
      rewrite IH by lia. rewrite noteBody_keys.
      unfold probeAll. rewrite foldl_app. unfold scanKeys.
      do 3 f_equal; lia.
    + by rewrite seqZ_nil by lia.
Qed.

Lemma isShapeActive_keys shape :
  isShapeActive shape activeNotes =
    probeAll {| isActive := false; maxVelocity := 0 |}
             (scanKeys shape (noteStart shape)).
Proof. unfold isShapeActive. by apply noteLoop_fuel. Qed.

(** The keys probed are the keys of the pairs the shape listens to. *)
Lemma elem_of_channelKeys (key : string) (note : Z) :
  key ∈ channelKeys note 1 ↔ ∃ c, 1 ≤ c ≤ 16 ∧ key = getNoteKey c (Some note).
Proof.
  unfold channelKeys. rewrite list_elem_of_fmap.
  setoid_rewrite elem_of_seqZ. split.
  - intros (c & -> & ?). exists c. split; [lia|done].
  - intros (c & ? & ->). exists c. split; [done|lia].
Qed.

Lemma elem_of_scanKeys shape (key : string) :
  key ∈ scanKeys shape (noteStart shape) ↔
  ∃ c n, listensTo shape c n ∧ key = getNoteKey c (Some n).
Proof.
  unfold scanKeys, listensTo. rewrite list_elem_of_bind.
  setoid_rewrite elem_of_seqZ. unfold noteKeys.
  destruct (Z.eqb_spec (channel shape) 0) as [E|E].
  - setoid_rewrite elem_of_channelKeys. split.
    + intros (n & (c & ? & ->) & ?). exists c, n.
      rewrite decide_True by done. split; [split; [lia|done]|done].
    + intros (c & n & [? Hc] & ->). rewrite decide_True in Hc by done.
      exists n. split; [by exists c|lia].
  - setoid_rewrite list_elem_of_singleton. split.
    + intros (n & -> & ?). exists (channel shape), n.
      rewrite decide_False by done. split; [split; [lia|done]|done].
    + intros (c & n & [? Hc] & ->). rewrite decide_False in Hc by done.
      subst c. exists n. split; [done|lia].
Qed.

(** What a fold of [probe] computes. *)
Lemma probeAll_snoc st keys (key : string) :
  probeAll st (keys ++ [key]) = probe activeNotes key (probeAll st keys).
Proof. unfold probeAll. by rewrite foldl_app. Qed.

Lemma probeAll_active st keys :
  isActive (probeAll st keys) = true ↔
  isActive st = true ∨ ∃ key, key ∈ keys ∧ is_Some (activeNotes !! key).
Proof.
  induction keys as [|key keys IH] using rev_ind.
  - simpl. split; [auto|]. intros [?|(? & ?%elem_of_nil & _)]; done.
  - rewrite probeAll_snoc. unfold probe.
    destruct (activeNotes !! key) as [entry|] eqn:E; simpl.
    + split; [|done]. intros _. right. exists key.
      rewrite elem_of_app, list_elem_of_singleton, E. eauto.
    + rewrite IH. split.
      * intros [?|(k & ? & ?)]; [by left|]. right. exists k.
        rewrite elem_of_app. eauto.
      * intros [?|(k & Hin & Hk)]; [by left|].
        apply elem_of_app in Hin as [?|Hin]; [right; by exists k|].
        apply list_elem_of_singleton in Hin as ->.
        rewrite E in Hk. by destruct Hk.
Qed.

Lemma probeAll_max_ge st keys : maxVelocity st ≤ maxVelocity (probeAll st keys).
Proof.
  induction keys as [|key keys IH] using rev_ind; [done|].
  rewrite probeAll_snoc. unfold probe.
  destruct (activeNotes !! key); simpl; lia.
Qed.

Lemma probeAll_max_upper st keys (key : string) (entry : ActiveNote) :
  key ∈ keys → activeNotes !! key = Some entry →
  velocity entry ≤ maxVelocity (probeAll st keys).
Proof.
  induction keys as [|k keys IH] using rev_ind; [by intros ?%elem_of_nil|].
  rewrite probeAll_snoc, elem_of_app, list_elem_of_singleton.
  intros [Hin| ->] Hentry.
  - specialize (IH Hin Hentry). unfold probe.
    destruct (activeNotes !! k); simpl; lia.
  - unfold probe. rewrite Hentry. simpl. lia.
Qed.

Lemma probeAll_max_attained st keys :
  maxVelocity (probeAll st keys) = maxVelocity st ∨
  ∃ key entry, key ∈ keys ∧ activeNotes !! key = Some entry ∧
               velocity entry = maxVelocity (probeAll st keys).
Proof.
  induction keys as [|k keys IH] using rev_ind; [by left|].
  rewrite probeAll_snoc. unfold probe.
  destruct (activeNotes !! k) as [entry|] eqn:E; simpl.
  - destruct (Z.max_spec (maxVelocity (probeAll st keys)) (velocity entry))
      as [[_ ->]|[_ ->]].
    + right. exists k, entry. rewrite elem_of_app, list_elem_of_singleton. auto.
    + destruct IH as [?|(k' & e' & ? & ? & ?)]; [by left|].
      right. exists k', e'. rewrite elem_of_app. auto.
  - destruct IH as [?|(k' & e' & ? & ? & ?)]; [by left|].
    right. exists k', e'. rewrite elem_of_app. auto.
Qed.

End Scan.

(** C1. [isShapeActive] reports a shape active exactly when the snapshot
    has an entry for some pair [(c, n)] with [n] between [noteStart] and
    [noteEnd], both included, and [c] the shape's channel, or any of
    1..16 when the shape's channel is 0. In particular a shape with
    [noteStart] above [noteEnd] is inactive on every snapshot. *)
Theorem isShapeActive_iff (shape : Shape) (activeNotes : ActiveNotesMap) :
  (isActive (isShapeActive shape activeNotes) = true ↔
   ∃ c n : Z,
     noteStart shape ≤ n ≤ noteEnd shape ∧
     (if decide (channel shape = 0) then 1 ≤ c ≤ 16 else c = channel shape) ∧
     is_Some (activeNotes !! getNoteKey c (Some n))) ∧
  (noteEnd shape < noteStart shape →
   isActive (isShapeActive shape activeNotes) = false).
Proof.
  assert (isActive (isShapeActive shape activeNotes) = true ↔
          ∃ c n : Z, listensTo shape c n ∧
                     is_Some (activeNotes !! getNoteKey c (Some n))) as Hiff.
  { rewrite isShapeActive_keys, probeAll_active. simpl.
    setoid_rewrite elem_of_scanKeys. split.
    - intros [?|(key & (c & n & ? & ->) & ?)]; [done|]. by exists c, n.
    - intros (c & n & ? & ?). right. exists (getNoteKey c (Some n)).
      split; [by exists c, n|done]. }
  split.
  - rewrite Hiff. unfold listensTo. split.
    + intros (c & n & [? ?] & ?). by exists c, n.
    + intros (c & n & ? & ? & ?). by exists c, n.
  - intros Hempty. apply not_true_is_false. rewrite Hiff.
    intros (c & n & [? _] & _). lia.
Qed.

Lemma isShapeActive_iff_witness :
  isActive (isShapeActive (mkShape "id" "Shape 1" [] 0 62 60 "#00ffcc" false 1)
                          oneNoteStore) = false.
Proof.
  apply (proj2 (isShapeActive_iff
                  (mkShape "id" "Shape 1" [] 0 62 60 "#00ffcc" false 1)
                  oneNoteStore)).
  simpl. lia.
Defined.

Example omni_matches_channel_2 :
  isShapeActive (mkShape "id" "Shape 1" [] 0 60 62 "#00ffcc" true 1)
                (replay [([x91; x3d; x50], 1)])
  = {| isActive := true; maxVelocity := 80 |}.
Proof. vm_compute. reflexivity. Qed.

(** C2, as the code has it. Over a snapshot whose intensities are not
    negative: the opacity of an inactive shape is 0 in PERFORMANCE mode
    and 0.2 in EDIT mode; the opacity of an active shape is [baseOpacity]
    when the shape is not velocity sensitive and
    [(maxVelocity / 127) * baseOpacity] when it is, where [maxVelocity]
    is the greatest intensity among all the entries of the pairs the
    shape listens to: no such entry has a greater one, and one of them
    has exactly this one. *)
Theorem fillOpacity_by_mode (mode : AppMode) (shape : Shape)
    (activeNotes : ActiveNotesMap) :
  nonNegative activeNotes →
  (isActive (isShapeActive shape activeNotes) = false →
   fillOpacity mode shape activeNotes =
     match mode with EDIT => 0.2%Q | PERFORMANCE => 0%Q end) ∧
  (isActive (isShapeActive shape activeNotes) = true →
   fillOpacity mode shape activeNotes =
     (if velocitySensitive shape
      then (inject_Z (maxVelocity (isShapeActive shape activeNotes)) / 127)
           * baseOpacity shape
      else baseOpacity shape)%Q ∧
   (∀ c n entry,
      listensTo shape c n →
      activeNotes !! getNoteKey c (Some n) = Some entry →
      velocity entry ≤ maxVelocity (isShapeActive shape activeNotes)) ∧
   (∃ c n entry,
      listensTo shape c n ∧
      activeNotes !! getNoteKey c (Some n) = Some entry ∧
      velocity entry = maxVelocity (isShapeActive shape activeNotes))).
Proof.
  intros Hnn. split.
  - intros Hoff. unfold fillOpacity. cbv zeta. by rewrite Hoff.
  - intros Hon. split_and!.
    + unfold fillOpacity. cbv zeta. by rewrite Hon.
    + intros c n entry Hl Hentry. rewrite isShapeActive_keys.
      apply probeAll_max_upper with (key := getNoteKey c (Some n)); [|done].
      apply elem_of_scanKeys. by exists c, n.
    + rewrite isShapeActive_keys in Hon |- *.
      destruct (probeAll_max_attained activeNotes
                  {| isActive := false; maxVelocity := 0 |}
                  (scanKeys shape (noteStart shape)))
        as [Hzero|(key & entry & Hin & Hentry & Hv)].
      * simpl in Hzero.
        apply probeAll_active in Hon as [?|(key & Hin & [entry Hentry])]; [done|].
        pose proof (probeAll_max_upper activeNotes
                      {| isActive := false; maxVelocity := 0 |} _ _ _ Hin Hentry).
        pose proof (Hnn _ _ Hentry).
        apply elem_of_scanKeys in Hin as (c & n & Hl & ->).
        exists c, n, entry. split_and!; [done|done|lia].
      * apply elem_of_scanKeys in Hin as (c & n & Hl & ->).
        by exists c, n, entry.
Qed.

Lemma oneNoteStore_nonNegative : nonNegative oneNoteStore.
Proof.
  intros key entry. unfold oneNoteStore.
  rewrite lookup_insert_Some, lookup_empty.
  intros [[_ <-]|[_ ?]]; [simpl; lia|done].
Qed.

Lemma fillOpacity_by_mode_witness :
  (isActive (isShapeActive middleC oneNoteStore) = false →
   fillOpacity PERFORMANCE middleC oneNoteStore = 0%Q) ∧
  (isActive (isShapeActive middleC oneNoteStore) = true →
   fillOpacity PERFORMANCE middleC oneNoteStore =
     (if velocitySensitive middleC
      then (inject_Z (maxVelocity (isShapeActive middleC oneNoteStore)) / 127)
           * baseOpacity middleC
      else baseOpacity middleC)%Q ∧
   (∀ c n entry,
      listensTo middleC c n →
      oneNoteStore !! getNoteKey c (Some n) = Some entry →
      velocity entry ≤ maxVelocity (isShapeActive middleC oneNoteStore)) ∧
   (∃ c n entry,
      listensTo middleC c n ∧
      oneNoteStore !! getNoteKey c (Some n) = Some entry ∧
      velocity entry = maxVelocity (isShapeActive middleC oneNoteStore))).
Proof.
  apply (fillOpacity_by_mode PERFORMANCE middleC oneNoteStore).
  intros key entry. unfold oneNoteStore.
  rewrite lookup_insert_Some, lookup_empty.
  intros [[_ <-]|[_ ?]]; [simpl; lia|done].
Defined.

(** C2 as the spec has it fails in EDIT mode: an inactive shape is drawn
    with opacity 0.2, not 0. *)
Lemma inactive_shape_in_edit_mode :
  isActive (isShapeActive middleC ∅) = false ∧
  ¬ (fillOpacity EDIT middleC ∅ == 0)%Q.
Proof. split; [vm_compute; reflexivity|]. intros H. vm_compute in H. discriminate. Qed.

Example velocity_100_of_127 :
  fillOpacity PERFORMANCE (mkShape "id" "Shape 1" [] 1 60 60 "#00ffcc" true 1)
              (replay [([x90; x3c; x64], 1)]) = (100 # 127)%Q.
Proof. vm_compute. reflexivity. Qed.

Example loudest_of_two :
  isShapeActive (mkShape "id" "Shape 1" [] 0 60 62 "#00ffcc" true 1)
                (replay [([x91; x3d; x50], 1); ([x95; x3e; x7f], 2)])
  = {| isActive := true; maxVelocity := 127 |}.
Proof. vm_compute. reflexivity. Qed.

(* ===================================================================== *)
(** * Properties of the authoring state machine *)
(* ===================================================================== *)

(** In EDIT mode, Enter while drawing is [finishDrawing]. *)
Lemma enter_while_drawing (app : AppState) (cv : CanvasState) (uuid : string) :
  mode app = EDIT → isDrawing cv = true →
  handleKeyDown app cv "Enter" uuid = finishDrawing app cv uuid.
Proof.
  intros Hmode Hdraw. unfold handleKeyDown. rewrite Hmode, Hdraw.
  reflexivity.
Qed.

(** C4, as the code has it. While drawing, the commit always ends the
    session: the component leaves the drawing state and the session's
    points are dropped, whatever their number. With fewer than 3 points
    nothing else happens: no shape is created. With 3 points or more
    exactly one shape is appended to the list; its points are the
    session's points in their order, its channel is 0 (omni), and its
    note range is the single note 60. In EDIT mode the Enter key is this
    commit. *)
Theorem finishDrawing_commit (app : AppState) (cv : CanvasState) (uuid : string) :
  isDrawing cv = true →
  isDrawing (finishDrawing app cv uuid).2 = false ∧
  drawingPoints (finishDrawing app cv uuid).2 = [] ∧
  ((length (drawingPoints cv) < 3)%nat → (finishDrawing app cv uuid).1 = app) ∧
  ((3 ≤ length (drawingPoints cv))%nat →
   ∃ region,
     shapes (finishDrawing app cv uuid).1 = shapes app ++ [region] ∧
     points region = drawingPoints cv ∧
     channel region = 0 ∧
     noteStart region = noteEnd region ∧ noteStart region = 60 ∧
     shape_id region = uuid ∧
     selectedShapeId (finishDrawing app cv uuid).1 = Some uuid) ∧
  (mode app = EDIT →
   handleKeyDown app cv "Enter" uuid = finishDrawing app cv uuid).
Proof.
  intros Hdraw.
  split; [done|]. split; [done|]. split; [|split].
  - intros Hlt. unfold finishDrawing. cbv zeta.
    by rewrite (proj2 (Nat.leb_gt _ _) Hlt).
  - intros Hge. unfold finishDrawing. cbv zeta.
    rewrite (proj2 (Nat.leb_le _ _) Hge). cbn [fst].
    eexists. split; [reflexivity|]. split_and!; reflexivity.
  - intros Hmode. by apply enter_while_drawing.
Qed.

Lemma finishDrawing_commit_witness :
  isDrawing (finishDrawing noShapes threePoints "uuid-1").2 = false ∧
  drawingPoints (finishDrawing noShapes threePoints "uuid-1").2 = [] ∧
  ((length (drawingPoints threePoints) < 3)%nat →
   (finishDrawing noShapes threePoints "uuid-1").1 = noShapes) ∧
  ((3 ≤ length (drawingPoints threePoints))%nat →
   ∃ region,
     shapes (finishDrawing noShapes threePoints "uuid-1").1
       = shapes noShapes ++ [region] ∧
     points region = drawingPoints threePoints ∧
     channel region = 0 ∧
     noteStart region = noteEnd region ∧ noteStart region = 60 ∧
     shape_id region = "uuid-1" ∧
     selectedShapeId (finishDrawing noShapes threePoints "uuid-1").1
       = Some "uuid-1") ∧
  (mode noShapes = EDIT →
   handleKeyDown noShapes threePoints "Enter" "uuid-1"
     = finishDrawing noShapes threePoints "uuid-1").
Proof. apply (finishDrawing_commit noShapes threePoints "uuid-1"). reflexivity. Defined.

(** C4 as the spec has it fails on a session of two points: the commit
    does not stay in the drawing state, and the two points are gone. *)
Lemma commit_with_two_points :
  isDrawing twoPoints = true ∧
  isDrawing (handleKeyDown noShapes twoPoints "Enter" "uuid-1").2 = false ∧
  drawingPoints (handleKeyDown noShapes twoPoints "Enter" "uuid-1").2
    ≠ drawingPoints twoPoints ∧
  isDrawing (finishDrawing noShapes twoPoints "uuid-1").2 = false ∧
  drawingPoints (finishDrawing noShapes twoPoints "uuid-1").2
    ≠ drawingPoints twoPoints.
Proof. vm_compute. split_and!; (reflexivity || discriminate). Qed.

Example commit_with_three_points :
  shapes (handleKeyDown noShapes threePoints "Enter" "uuid-1").1
  = [mkShape "uuid-1" "Shape 1" (drawingPoints threePoints) 0 60 60
             "#00ffcc" false 1].
Proof. vm_compute. reflexivity. Qed.

Example escape_cancels :
  handleKeyDown noShapes threePoints "Escape" "uuid-1"
  = (noShapes, mkCanvas [] false None).
Proof. vm_compute. reflexivity. Qed.

Section Drag.



Lemma clamp_NaN : clamp NaN = NaN.
Proof. reflexivity. Qed.

Lemma clamp_id (v : JsNumber) : within100 v → sameNumber (clamp v) v.
Proof.
  destruct v as [q| | |]; simpl; try done.
  intros [Hlo Hhi]. rewrite (Q.min_r 100 q Hhi). by apply Q.max_r.
Qed.

Lemma jsDivide_finite (n d : Q) : ¬ (d == 0)%Q → jsDivide n d = Finite (n / d).
Proof.
  intros Hd. unfold jsDivide.
  destruct (Qeq_bool d 0) eqn:E; [|done].
  by apply Qeq_bool_iff in E.
Qed.



Lemma arraySet_length_inside {A} (arr : list (option A)) (i : nat) (v : A) :
  (i < length arr)%nat → length (arraySet arr i v) = length arr.
Proof.
  intros Hlt. unfold arraySet.
  rewrite (proj2 (Nat.ltb_lt _ _) Hlt). apply length_insert.
Qed.

End Drag.




Example drag_far_right_of_empty_box :
  (points <$> shapes (handleWindowMouseMove oneTriangle 1 emptyBox 5 (-5)))
  = [[Some (mkPoint (Finite 10) (Finite 10));
      Some (mkPoint (Finite 100) (Finite 0));
      Some (mkPoint (Finite 15) (Finite 30))]].
Proof. vm_compute. reflexivity. Qed.

Example drag_outside_the_surface :
  (points <$> shapes (handleWindowMouseMove oneTriangle 1 surface 300 (-20)))
  = [[Some (mkPoint (Finite 10) (Finite 10));
      Some (mkPoint (Finite 100) (Finite 0));
      Some (mkPoint (Finite 15) (Finite 30))]].
Proof. vm_compute. reflexivity. Qed.

(* ===================================================================== *)
(** * Further properties of the activation store *)
(* ===================================================================== *)

Section StoreAlgebra.

Implicit Types (current : ActiveNotesMap) (data : list byte) (now : Z).

Lemma sounding_has_note data :
  0 < msg_velocity (parseMidiMessage data) →
  ∃ n, msg_note (parseMidiMessage data) = Some n ∧ 0 ≤ n ≤ 255.
Proof.
  parse_unfold. case_decide as Hlen; [|lia]. intros _.
  destruct (byteAt_is_Some data 1) as [n Hn]; [lia|].
  exists n. split; [done|]. by eapply byteAt_range.
Qed.

Lemma handle_twice current data now :
  handleMidiMessage (handleMidiMessage current data now) data now
  = handleMidiMessage current data now.
Proof.
  destruct (handle_cases data) as [[??]|[?|[??]]].
  - rewrite !handle_note_on by done. apply insert_insert_eq.
  - rewrite !handle_note_off by done. apply delete_delete_eq.
  - by rewrite !handle_other.
Qed.

Lemma handle_commute current data1 now1 data2 now2 :
  eventKey (data1, now1) ≠ eventKey (data2, now2) →
  handleMidiMessage (handleMidiMessage current data1 now1) data2 now2
  = handleMidiMessage (handleMidiMessage current data2 now2) data1 now1.
Proof.
  intros Hne.
  destruct (handle_cases data1) as [[??]|[?|[??]]],
           (handle_cases data2) as [[??]|[?|[??]]];
    repeat first [ rewrite handle_note_on by done
                 | rewrite handle_note_off by done
                 | rewrite handle_other by done ];
    try done.
  - by apply insert_insert_ne.
  - by apply delete_insert_ne.
  - symmetry. by apply delete_insert_ne.
  - apply delete_delete.
Qed.

End StoreAlgebra.

(** X1. Delivering a message a second time, at the same clock value,
    leaves the store the first delivery produced. *)
Theorem duplicate_message_is_harmless (current : ActiveNotesMap)
    (data : list byte) (now : Z) :
  handleMidiMessage (handleMidiMessage current data now) data now
  = handleMidiMessage current data now.
Proof. apply handle_twice. Qed.

Section Velocities.

Implicit Types (data : list byte).

(** The handler keeps two stores alike in keys and velocities so,
    whatever the clock shows in the one and in the other. *)
Lemma handle_sameVelocities (notes1 notes2 : ActiveNotesMap) data (t t' : Z) :
  sameVelocities notes1 notes2 →
  sameVelocities (handleMidiMessage notes1 data t)
                 (handleMidiMessage notes2 data t').
Proof.
  intros Hsame key.
  change (eventKey (data, t')) with (eventKey (data, t)).
  destruct (handle_cases data) as [[??]|[?|[??]]].
  - rewrite !handle_note_on by done.
    change (eventKey (data, t')) with (eventKey (data, t)).
    destruct (decide (key = eventKey (data, t))) as [->|Hne].
    + by rewrite !lookup_insert_eq.
    + rewrite !lookup_insert_ne by done. apply Hsame.
  - rewrite !handle_note_off by done.
    change (eventKey (data, t')) with (eventKey (data, t)).
    destruct (decide (key = eventKey (data, t))) as [->|Hne].
    + by rewrite !lookup_delete_eq.
    + rewrite !lookup_delete_ne by done. apply Hsame.
  - rewrite !handle_other by done. apply Hsame.
Qed.

Lemma sameVelocities_refl (notes1 : ActiveNotesMap) : sameVelocities notes1 notes1.
Proof. by intros key. Qed.

(** The matcher reads the velocities only. *)
Lemma probe_sameVelocities (notes1 notes2 : ActiveNotesMap) (key : string) (st : Scan) :
  sameVelocities notes1 notes2 → probe notes1 key st = probe notes2 key st.
Proof.
  intros Hsame. unfold probe. specialize (Hsame key).
  destruct (notes1 !! key) as [e1|], (notes2 !! key) as [e2|];
    simplify_eq/=; congruence.
Qed.

Lemma isShapeActive_sameVelocities (notes1 notes2 : ActiveNotesMap) (shape : Shape) :
  sameVelocities notes1 notes2 →
  isShapeActive shape notes1 = isShapeActive shape notes2.
Proof.
  intros Hsame. rewrite !isShapeActive_keys.
  generalize {| isActive := false; maxVelocity := 0 |}.
  induction (scanKeys shape (noteStart shape)) as [|key keys IH]; intros st.
  - done.
  - simpl. rewrite (probe_sameVelocities notes1 notes2 key st Hsame). apply IH.
Qed.

End Velocities.

(** X2. The order in which two messages about different (channel, note)
    pairs arrive does not show: handled one way round or the other, each
    at whatever the clock then reads, the two stores have the same keys
    with the same velocities (only timestamps can differ), and every
    shape gets the same activation and the same opacity from both. *)
Theorem messages_of_other_pairs_commute (current : ActiveNotesMap)
    (data1 data2 : list byte) (t1 t2 t1' t2' : Z) :
  (msg_channel (parseMidiMessage data1), msg_note (parseMidiMessage data1))
    ≠ (msg_channel (parseMidiMessage data2), msg_note (parseMidiMessage data2)) →
  sameVelocities
    (handleMidiMessage (handleMidiMessage current data1 t1) data2 t2)
    (handleMidiMessage (handleMidiMessage current data2 t1') data1 t2') ∧
  (∀ shape,
     isShapeActive shape
       (handleMidiMessage (handleMidiMessage current data1 t1) data2 t2)
     = isShapeActive shape
         (handleMidiMessage (handleMidiMessage current data2 t1') data1 t2')) ∧
  (∀ mode shape,
     fillOpacity mode shape
       (handleMidiMessage (handleMidiMessage current data1 t1) data2 t2)
     = fillOpacity mode shape
         (handleMidiMessage (handleMidiMessage current data2 t1') data1 t2')).
Proof.
  intros Hne.
  assert (sameVelocities
            (handleMidiMessage (handleMidiMessage current data1 t1) data2 t2)
            (handleMidiMessage (handleMidiMessage current data2 t1') data1 t2'))
    as Hsame.
  { rewrite (handle_commute current data1 t1 data2 t2)
      by (unfold eventKey; simpl fst; by apply getNoteKey_ne).
    apply handle_sameVelocities, handle_sameVelocities, sameVelocities_refl. }
  split_and!.
  - exact Hsame.
  - intros shape. by apply isShapeActive_sameVelocities.
  - intros mode shape. unfold fillOpacity. cbv zeta.
    by rewrite (isShapeActive_sameVelocities _ _ shape Hsame).
Qed.

Lemma messages_of_other_pairs_commute_witness :
  sameVelocities
    (handleMidiMessage (handleMidiMessage oneNoteStore [x90; x3d; x50] 4)
                       [x81; x3d; x00] 5)
    (handleMidiMessage (handleMidiMessage oneNoteStore [x81; x3d; x00] 6)
                       [x90; x3d; x50] 7) ∧
  (∀ shape,
     isShapeActive shape
       (handleMidiMessage (handleMidiMessage oneNoteStore [x90; x3d; x50] 4)
                          [x81; x3d; x00] 5)
     = isShapeActive shape
         (handleMidiMessage (handleMidiMessage oneNoteStore [x81; x3d; x00] 6)
                            [x90; x3d; x50] 7)) ∧
  (∀ mode shape,
     fillOpacity mode shape
       (handleMidiMessage (handleMidiMessage oneNoteStore [x90; x3d; x50] 4)
                          [x81; x3d; x00] 5)
     = fillOpacity mode shape
         (handleMidiMessage (handleMidiMessage oneNoteStore [x81; x3d; x00] 6)
                            [x90; x3d; x50] 7)).
Proof.
  apply (messages_of_other_pairs_commute oneNoteStore
           [x90; x3d; x50] [x81; x3d; x00] 4 5 6 7).
  vm_compute. discriminate.
Defined.

Example arrival_order_shows_in_timestamps :
  handleMidiMessage (handleMidiMessage ∅ [x90; x3c; x64] 4) [x91; x3d; x50] 5
  ≠ handleMidiMessage (handleMidiMessage ∅ [x91; x3d; x50] 4) [x90; x3c; x64] 5.
Proof.
  intros E.
  apply (f_equal (λ m : ActiveNotesMap, m !! "1-60")) in E.
  vm_compute in E. discriminate.
Qed.

(** X3. A note-on with positive velocity followed by the note-off of the
    same pair removes the pair's entry; on a store that had no entry for
    the pair, the two together give back the store as it was. *)
Theorem note_on_then_off (current : ActiveNotesMap)
    (dataOn dataOff : list byte) (t t' : Z) :
  msg_command (parseMidiMessage dataOn) = 9 →
  0 < msg_velocity (parseMidiMessage dataOn) →
  msg_command (parseMidiMessage dataOff) = 8 →
  msg_channel (parseMidiMessage dataOff) = msg_channel (parseMidiMessage dataOn) →
  msg_note (parseMidiMessage dataOff) = msg_note (parseMidiMessage dataOn) →
  handleMidiMessage (handleMidiMessage current dataOn t) dataOff t'
    = delete (eventKey (dataOn, t)) current ∧
  (current !! eventKey (dataOn, t) = None →
   handleMidiMessage (handleMidiMessage current dataOn t) dataOff t' = current).
Proof.
  intros H9 Hv H8 Hch Hn.
  assert (handleMidiMessage (handleMidiMessage current dataOn t) dataOff t'
          = delete (eventKey (dataOn, t)) current) as E.
  { rewrite (handle_note_off _ dataOff) by auto.
    rewrite (handle_note_on _ dataOn) by done.
    unfold eventKey; simpl fst. rewrite Hch, Hn. apply delete_insert_eq. }
  split; [done|]. intros Habs. rewrite E. by apply delete_id.
Qed.

Lemma note_on_then_off_witness :
  handleMidiMessage (handleMidiMessage oneNoteStore [x91; x3d; x50] 4)
                    [x81; x3d; x00] 5
    = delete (eventKey ([x91; x3d; x50], 4)) oneNoteStore ∧
  (oneNoteStore !! eventKey ([x91; x3d; x50], 4) = None →
   handleMidiMessage (handleMidiMessage oneNoteStore [x91; x3d; x50] 4)
                     [x81; x3d; x00] 5 = oneNoteStore).
Proof.
  apply (note_on_then_off oneNoteStore [x91; x3d; x50] [x81; x3d; x00] 4 5);
    vm_compute; reflexivity.
Defined.

Section ReplayValues.

Implicit Types (events : list MidiEvent) (ev : MidiEvent).

Lemma lastNoteEventFor_snoc c n events ev :
  lastNoteEventFor c n (events ++ [ev]) =
    if decide (concerns c n ev ∧ isNoteEvent ev = true) then Some ev
    else lastNoteEventFor c n events.
Proof.
  unfold lastNoteEventFor. rewrite filter_app.
  case_decide as Hc.
  - rewrite filter_cons_True by done. rewrite filter_nil. apply last_snoc.
  - rewrite filter_cons_False by done. by rewrite filter_nil, app_nil_r.
Qed.

Lemma isNoteEvent_false data now :
  isNoteEvent (data, now) ≠ true →
  msg_command (parseMidiMessage data) ≠ 8 ∧
  msg_command (parseMidiMessage data) ≠ 9.
Proof.
  unfold isNoteEvent; simpl fst. intros Hn.
  split; intros E; apply Hn; rewrite E; done.
Qed.

Lemma replay_lookup_pair events (c : Z) (n : option Z) :
  replay events !! getNoteKey c n = lastNoteEventFor c n events ≫= entryOf.
Proof.
  induction events as [|[data now] events IH] using rev_ind.
  - unfold replay, lastNoteEventFor; simpl. by rewrite lookup_empty.
  - rewrite replay_snoc, lastNoteEventFor_snoc. simpl fst; simpl snd.
    case_decide as Hc.
    + destruct Hc as [[Hch Hn] Hnote]; simpl in Hch, Hn. subst c n.
      fold (eventKey (data, now)). simpl. unfold entryOf, isSoundingNoteOn.
      simpl fst; simpl snd.
      destruct (handle_cases data) as [[H9 Hv]|[Hoff|[H8 H9]]].
      * rewrite handle_note_on by done. rewrite lookup_insert_eq.
        by rewrite H9, (proj2 (Z.ltb_lt _ _) Hv).
      * rewrite handle_note_off by done. rewrite lookup_delete_eq.
        destruct Hoff as [H8|[H9 Hv]]; [by rewrite H8|].
        by rewrite H9, Hv.
      * unfold isNoteEvent in Hnote; simpl fst in Hnote.
        apply orb_prop in Hnote as [?%Z.eqb_eq|?%Z.eqb_eq]; done.
    + rewrite <- IH. apply not_and_l in Hc as [Hc|Hc].
      * apply handle_lookup_other. unfold eventKey; simpl fst.
        apply getNoteKey_ne. intros [= -> ->]. by apply Hc.
      * apply isNoteEvent_false in Hc as [H8 H9]. by rewrite handle_other.
Qed.

Lemma replay_entry_origin events (key : string) (entry : ActiveNote) :
  replay events !! key = Some entry →
  ∃ data now c n,
    (data, now) ∈ events ∧
    key = getNoteKey c (Some n) ∧
    msg_channel (parseMidiMessage data) = c ∧
    msg_note (parseMidiMessage data) = Some n ∧
    msg_command (parseMidiMessage data) = 9 ∧
    entry = mkActiveNote (msg_velocity (parseMidiMessage data)) now ∧
    0 < velocity entry.
Proof.
  revert entry. induction events as [|[data now] events IH] using rev_ind;
    intros entry.
  - unfold replay; simpl. by rewrite lookup_empty.
  - rewrite replay_snoc; simpl fst; simpl snd. intros Hlook.
    assert (replay events !! key = Some entry →
            ∃ data' now' c n,
              (data', now') ∈ events ++ [(data, now)] ∧
              key = getNoteKey c (Some n) ∧
              msg_channel (parseMidiMessage data') = c ∧
              msg_note (parseMidiMessage data') = Some n ∧
              msg_command (parseMidiMessage data') = 9 ∧
              entry = mkActiveNote (msg_velocity (parseMidiMessage data')) now' ∧
              0 < velocity entry) as Hold.
    { intros H. destruct (IH _ H) as (d & t & c & n & Hin & ?).
      exists d, t, c, n. split; [|done]. apply elem_of_app. by left. }
    destruct (handle_cases data) as [[H9 Hv]|[Hoff|[H8 H9]]].
    + rewrite handle_note_on in Hlook by done.
      destruct (decide (key = eventKey (data, now))) as [->|Hne].
      * rewrite lookup_insert_eq in Hlook. injection Hlook as <-.
        destruct (sounding_has_note data Hv) as (n & Hn & _).
        exists data, now, (msg_channel (parseMidiMessage data)), n.
        split_and!; try done.
        -- apply elem_of_app. right. by apply list_elem_of_singleton.
        -- unfold eventKey; simpl fst. by rewrite Hn.
      * rewrite lookup_insert_ne in Hlook by done. by apply Hold.
    + rewrite handle_note_off in Hlook by done.
      destruct (decide (key = eventKey (data, now))) as [->|Hne].
      * by rewrite lookup_delete_eq in Hlook.
      * rewrite lookup_delete_ne in Hlook by done. by apply Hold.
    + rewrite handle_other in Hlook by done. by apply Hold.
Qed.

Lemma size_list_to_set_le (keys : list string) :
  (size (list_to_set keys : gset string) ≤ length keys)%nat.
Proof.
  induction keys as [|k keys IH].
  - rewrite list_to_set_nil, size_empty. done.
  - rewrite list_to_set_cons, size_union_alt, size_singleton. simpl.
    assert (size (list_to_set keys ∖ {[k]} : gset string)
            ≤ size (list_to_set keys : gset string))%nat.
    { apply subseteq_size. intros x Hx.
      by apply elem_of_difference in Hx as [? _]. }
    lia.
Qed.

Lemma elem_of_allKeys (c n : Z) :
  1 ≤ c ≤ 16 → 0 ≤ n ≤ 255 → getNoteKey c (Some n) ∈ allKeys.
Proof.
  intros Hc Hn. unfold allKeys. apply list_elem_of_bind. exists c. split.
  - apply list_elem_of_fmap. exists n. split; [done|].
    apply elem_of_seqZ. lia.
  - apply elem_of_seqZ. lia.
Qed.

End ReplayValues.

(** X4. After any sequence of messages, whatever their commands, the
    entry of a (channel, note) pair is decided by the last note-on or
    note-off about the pair: there is an entry exactly when that message
    is a note-on with positive velocity, and the entry carries that
    message's velocity and the clock value of its delivery. *)
Theorem replay_lookup (events : list MidiEvent) (c : Z) (n : option Z) :
  replay events !! getNoteKey c n = lastNoteEventFor c n events ≫= entryOf.
Proof. apply replay_lookup_pair. Qed.

(** X5. Every entry of the store was written by a note-on of the
    sequence: its key is that of a channel in 1..16 and a note byte in
    0..255 (never of an absent note), its velocity is in 1..255, and its
    timestamp is the clock value at which one of the messages was
    delivered. *)
Theorem replay_entries_in_range (events : list MidiEvent)
    (key : string) (entry : ActiveNote) :
  replay events !! key = Some entry →
  ∃ c n : Z,
    key = getNoteKey c (Some n) ∧ 1 ≤ c ≤ 16 ∧ 0 ≤ n ≤ 255 ∧
    1 ≤ velocity entry ≤ 255 ∧
    ∃ data, (data, timestamp entry) ∈ events.
Proof.
  intros H.
  destruct (replay_entry_origin events key entry H)
    as (data & now & c & n & Hin & -> & Hc & Hn & _ & -> & Hv).
  exists c, n. simpl in *. split_and!; try done.
  - subst c. apply parse_channel_range.
  - subst c. apply parse_channel_range.
  - apply (byteAt_range data 1). exact Hn.
  - apply (byteAt_range data 1). exact Hn.
  - lia.
  - apply parse_velocity_range.
  - by exists data.
Qed.

Lemma replay_entries_in_range_witness :
  ∃ c n : Z,
    "2-61" = getNoteKey c (Some n) ∧ 1 ≤ c ≤ 16 ∧ 0 ≤ n ≤ 255 ∧
    1 ≤ velocity (mkActiveNote 80 2) ≤ 255 ∧
    ∃ data, (data, timestamp (mkActiveNote 80 2))
              ∈ [([x90; x3c; x64], 1); ([x91; x3d; x50], 2); ([x80; x3c; x00], 3)].
Proof.
  apply (replay_entries_in_range
           [([x90; x3c; x64], 1); ([x91; x3d; x50], 2); ([x80; x3c; x00], 3)]
           "2-61" (mkActiveNote 80 2)).
  vm_compute. reflexivity.
Defined.

(** X6. However long the sequence of messages, the store never holds
    more than 16 * 256 = 4096 entries. *)
Theorem replay_size_bounded (events : list MidiEvent) :
  (size (replay events) ≤ 4096)%nat.
Proof.
  rewrite <- (size_dom (D := gset string)).
  transitivity (size (list_to_set allKeys : gset string)).
  - apply subseteq_size. intros key [entry Hentry]%elem_of_dom.
    destruct (replay_entry_origin events key entry Hentry)
      as (data & now & c & n & _ & -> & Hc & Hn & _).
    apply elem_of_list_to_set, elem_of_allKeys.
    + subst c. apply parse_channel_range.
    + by apply (byteAt_range data 1).
  - etransitivity; [apply size_list_to_set_le|].
    apply Nat.eq_le_incl. vm_compute. reflexivity.
Qed.

(* ===================================================================== *)
(** * Further properties of the matcher *)
(* ===================================================================== *)

Section MatcherFacts.

Implicit Types (shape : Shape) (activeNotes : ActiveNotesMap).

Lemma isShapeActive_listens shape activeNotes :
  isActive (isShapeActive shape activeNotes) = true ↔
  ∃ c n, listensTo shape c n ∧ is_Some (activeNotes !! getNoteKey c (Some n)).
Proof.
  rewrite isShapeActive_keys, probeAll_active. simpl.
  setoid_rewrite elem_of_scanKeys. split.
  - intros [?|(key & (c & n & ? & ->) & ?)]; [done|]. by exists c, n.
  - intros (c & n & ? & ?). right. exists (getNoteKey c (Some n)).
    split; [by exists c, n|done].
Qed.

Lemma isShapeActive_max_nonneg shape activeNotes :
  0 ≤ maxVelocity (isShapeActive shape activeNotes).
Proof.
  rewrite isShapeActive_keys.
  apply (probeAll_max_ge activeNotes {| isActive := false; maxVelocity := 0 |}).
Qed.

Lemma isShapeActive_max_upper shape activeNotes c n entry :
  listensTo shape c n →
  activeNotes !! getNoteKey c (Some n) = Some entry →
  velocity entry ≤ maxVelocity (isShapeActive shape activeNotes).
Proof.
  intros Hl Hentry. rewrite isShapeActive_keys.
  apply probeAll_max_upper with (key := getNoteKey c (Some n)); [|done].
  apply elem_of_scanKeys. by exists c, n.
Qed.

Lemma isShapeActive_max_attained shape activeNotes :
  maxVelocity (isShapeActive shape activeNotes) = 0 ∨
  ∃ c n entry,
    listensTo shape c n ∧
    activeNotes !! getNoteKey c (Some n) = Some entry ∧
    velocity entry = maxVelocity (isShapeActive shape activeNotes).
Proof.
  rewrite isShapeActive_keys.
  destruct (probeAll_max_attained activeNotes
              {| isActive := false; maxVelocity := 0 |}
              (scanKeys shape (noteStart shape)))
    as [?|(key & entry & Hin & ? & ?)]; [by left|].
  apply elem_of_scanKeys in Hin as (c & n & ? & ->).
  right. by exists c, n, entry.
Qed.

Lemma is_Some_entryOf (last : option MidiEvent) :
  is_Some (last ≫= entryOf) ↔
  ∃ ev, last = Some ev ∧ isSoundingNoteOn ev = true.
Proof.
  destruct last as [ev|]; simpl.
  - unfold entryOf. destruct (isSoundingNoteOn ev) eqn:E.
    + split; [intros _; by exists ev|by eauto].
    + split; [by intros [? ?]|]. intros (? & [= <-] & ?). congruence.
  - split; [by intros [? ?]|by intros (? & ? & _)].
Qed.

End MatcherFacts.

(** X7. After any sequence of messages a shape is active exactly when,
    for one of the pairs it listens to, the last note-on or note-off
    about the pair is a note-on with positive velocity. *)
Theorem shape_active_after_replay (shape : Shape) (events : list MidiEvent) :
  isActive (isShapeActive shape (replay events)) = true ↔
  ∃ c n ev,
    listensTo shape c n ∧
    lastNoteEventFor c (Some n) events = Some ev ∧
    isSoundingNoteOn ev = true.
Proof.
  rewrite isShapeActive_listens. split.
  - intros (c & n & Hl & Hs). rewrite replay_lookup_pair in Hs.
    apply is_Some_entryOf in Hs as (ev & ? & ?). by exists c, n, ev.
  - intros (c & n & ev & Hl & Hlast & Hon). exists c, n. split; [done|].
    rewrite replay_lookup_pair. apply is_Some_entryOf. by exists ev.
Qed.

(** X8. Pressing a key lights the shapes that listen to it: right after
    a note-on with positive velocity for a pair a shape listens to, the
    shape is active, with at least that velocity. *)
Theorem note_on_activates (shape : Shape) (events : list MidiEvent)
    (data : list byte) (now : Z) (c n : Z) :
  msg_command (parseMidiMessage data) = 9 →
  0 < msg_velocity (parseMidiMessage data) →
  msg_channel (parseMidiMessage data) = c →
  msg_note (parseMidiMessage data) = Some n →
  listensTo shape c n →
  isActive (isShapeActive shape (replay (events ++ [(data, now)]))) = true ∧
  msg_velocity (parseMidiMessage data)
    ≤ maxVelocity (isShapeActive shape (replay (events ++ [(data, now)]))).
Proof.
  intros H9 Hv Hc Hn Hl.
  assert (replay (events ++ [(data, now)]) !! getNoteKey c (Some n)
          = Some (mkActiveNote (msg_velocity (parseMidiMessage data)) now)) as E.
  { rewrite replay_snoc; simpl fst; simpl snd.
    rewrite handle_note_on by done. unfold eventKey; simpl fst.
    rewrite Hc, Hn. apply lookup_insert_eq. }
  split.
  - apply isShapeActive_listens. exists c, n. split; [done|]. by rewrite E.
  - by apply (isShapeActive_max_upper shape _ c n _ Hl E).
Qed.

Lemma note_on_activates_witness :
  isActive (isShapeActive middleC (replay ([] ++ [([x92; x3c; x64], 7)]))) = true ∧
  msg_velocity (parseMidiMessage [x92; x3c; x64])
    ≤ maxVelocity (isShapeActive middleC (replay ([] ++ [([x92; x3c; x64], 7)]))).
Proof.
  apply (note_on_activates middleC [] [x92; x3c; x64] 7 3 60);
    try (vm_compute; reflexivity).
  split; simpl; lia.
Defined.

(** X9. Releasing the key turns off a shape that listens to that one
    pair only: right after a note-off, or a note-on with velocity 0, for
    the pair [(c, n)], a shape with channel [c] (not omni) and note range
    [n..n] is inactive, whatever came before. *)
Theorem note_off_deactivates (shape : Shape) (events : list MidiEvent)
    (data : list byte) (now : Z) :
  msg_command (parseMidiMessage data) = 8 ∨
  (msg_command (parseMidiMessage data) = 9 ∧
   msg_velocity (parseMidiMessage data) = 0) →
  channel shape = msg_channel (parseMidiMessage data) →
  msg_note (parseMidiMessage data) = Some (noteStart shape) →
  noteEnd shape = noteStart shape →
  isActive (isShapeActive shape (replay (events ++ [(data, now)]))) = false.
Proof.
  intros Hoff Hc Hn Hrange. apply not_true_is_false.
  rewrite isShapeActive_listens. intros (c & n & [Hin Hch] & Hs).
  assert (n = noteStart shape) as -> by lia.
  pose proof (parse_channel_range data).
  rewrite decide_False in Hch by lia. subst c.
  rewrite replay_snoc in Hs; simpl fst in Hs; simpl snd in Hs.
  rewrite handle_note_off in Hs by done. unfold eventKey in Hs; simpl fst in Hs.
  rewrite Hc, Hn, lookup_delete_eq in Hs. by destruct Hs.
Qed.

Lemma note_off_deactivates_witness :
  isActive (isShapeActive (mkShape "id" "Shape 1" [] 1 60 60 "#00ffcc" true 1)
              (replay ([([x90; x3c; x64], 1)] ++ [([x80; x3c; x00], 2)]))) = false.
Proof.
  apply (note_off_deactivates
           (mkShape "id" "Shape 1" [] 1 60 60 "#00ffcc" true 1)
           [([x90; x3c; x64], 1)] [x80; x3c; x00] 2);
    try (vm_compute; reflexivity).
  left. vm_compute. reflexivity.
Defined.

(** X10. More sounding notes never turn a shape off nor lower its
    velocity: if a snapshot is included in another, a shape active on
    the first is active on the second, and its maximal velocity on the
    first is at most its maximal velocity on the second. *)
Theorem more_notes_never_less_active (shape : Shape)
    (notes1 notes2 : ActiveNotesMap) :
  notes1 ⊆ notes2 →
  (isActive (isShapeActive shape notes1) = true →
   isActive (isShapeActive shape notes2) = true) ∧
  maxVelocity (isShapeActive shape notes1)
    ≤ maxVelocity (isShapeActive shape notes2).
Proof.
  intros Hsub. split.
  - rewrite !isShapeActive_listens. intros (c & n & Hl & [entry Hentry]).
    exists c, n. split; [done|]. exists entry.
    by apply (lookup_weaken notes1 notes2).
  - destruct (isShapeActive_max_attained shape notes1)
      as [->|(c & n & entry & Hl & Hentry & <-)].
    + apply isShapeActive_max_nonneg.
    + apply (isShapeActive_max_upper shape notes2 c n entry Hl).
      by apply (lookup_weaken notes1 notes2).
Qed.

Lemma more_notes_never_less_active_witness :
  (isActive (isShapeActive middleC ∅) = true →
   isActive (isShapeActive middleC oneNoteStore) = true) ∧
  maxVelocity (isShapeActive middleC ∅)
    ≤ maxVelocity (isShapeActive middleC oneNoteStore).
Proof.
  apply (more_notes_never_less_active middleC ∅ oneNoteStore).
  apply map_empty_subseteq.
Defined.

(** X11. Omni matches whatever a single channel matches: on the same
    snapshot, if a shape with a channel in 1..16 is active, the shape
    with the same note range and channel 0 is active too, with at least
    the same maximal velocity. *)
Theorem omni_dominates (shape omni : Shape) (activeNotes : ActiveNotesMap) :
  1 ≤ channel shape ≤ 16 →
  channel omni = 0 →
  noteStart omni = noteStart shape →
  noteEnd omni = noteEnd shape →
  (isActive (isShapeActive shape activeNotes) = true →
   isActive (isShapeActive omni activeNotes) = true) ∧
  maxVelocity (isShapeActive shape activeNotes)
    ≤ maxVelocity (isShapeActive omni activeNotes).
Proof.
  intros Hch Homni Hlo Hhi.
  assert (∀ c n, listensTo shape c n → listensTo omni c n) as Hincl.
  { unfold listensTo. intros c n [Hn Hc].
    rewrite decide_False in Hc by lia.
    rewrite decide_True by done. rewrite Hlo, Hhi. split; [done|lia]. }
  split.
  - rewrite !isShapeActive_listens. intros (c & n & Hl & Hs).
    exists c, n. auto.
  - destruct (isShapeActive_max_attained shape activeNotes)
      as [->|(c & n & entry & Hl & Hentry & <-)].
    + apply isShapeActive_max_nonneg.
    + apply (isShapeActive_max_upper omni activeNotes c n entry); auto.
Qed.

Lemma omni_dominates_witness :
  (isActive (isShapeActive (mkShape "id" "Shape 1" [] 1 60 60 "#00ffcc" true 1)
                           oneNoteStore) = true →
   isActive (isShapeActive middleC oneNoteStore) = true) ∧
  maxVelocity (isShapeActive (mkShape "id" "Shape 1" [] 1 60 60 "#00ffcc" true 1)
                             oneNoteStore)
    ≤ maxVelocity (isShapeActive middleC oneNoteStore).
Proof.
  apply (omni_dominates (mkShape "id" "Shape 1" [] 1 60 60 "#00ffcc" true 1)
                        middleC oneNoteStore);
    simpl; (lia || reflexivity).
Defined.

(** X12. A shape whose channel is outside 0..16, or whose note range
    lies entirely outside 0..255, is never active on a store built from
    messages: no message has such a channel or note. *)
Theorem unreachable_trigger_never_active (shape : Shape)
    (events : list MidiEvent) :
  channel shape < 0 ∨ 16 < channel shape ∨
  noteEnd shape < 0 ∨ 255 < noteStart shape →
  isActive (isShapeActive shape (replay events)) = false.
Proof.
  intros Hout. apply not_true_is_false.
  rewrite isShapeActive_listens. intros (c & n & [Hn Hc] & [entry Hentry]).
  destruct (replay_entry_origin events _ entry Hentry)
    as (data & now & c' & n' & _ & Hkey & Hc' & Hn' & _).
  apply getNoteKey_inj in Hkey as [-> [= ->]].
  pose proof (parse_channel_range data).
  pose proof (byteAt_range data 1 n' Hn').
  destruct (decide (channel shape = 0)); lia.
Qed.

Lemma unreachable_trigger_never_active_witness :
  isActive (isShapeActive (mkShape "id" "Shape 1" [] 17 0 127 "#00ffcc" true 1)
                          (replay [([x9f; x3c; x64], 1)])) = false.
Proof.
  apply (unreachable_trigger_never_active
           (mkShape "id" "Shape 1" [] 17 0 127 "#00ffcc" true 1)
           [([x9f; x3c; x64], 1)]).
  simpl. lia.
Defined.

(** X13. With velocities in 0..127 and a base opacity in 0..1, the
    opacity of a shape is in 0..1 in both modes, and the opacity of an
    active shape does not exceed its base opacity. *)
Theorem opacity_within_unit (mode : AppMode) (shape : Shape)
    (activeNotes : ActiveNotesMap) :
  (0 <= baseOpacity shape <= 1)%Q →
  (∀ key entry, activeNotes !! key = Some entry → 0 ≤ velocity entry ≤ 127) →
  (0 <= fillOpacity mode shape activeNotes <= 1)%Q ∧
  (isActive (isShapeActive shape activeNotes) = true →
   (fillOpacity mode shape activeNotes <= baseOpacity shape)%Q).
Proof.
  intros Hbase Hvel.
  assert (0 ≤ maxVelocity (isShapeActive shape activeNotes) ≤ 127) as [Hlo Hhi].
  { split; [apply isShapeActive_max_nonneg|].
    destruct (isShapeActive_max_attained shape activeNotes)
      as [->|(c & n & entry & _ & Hentry & <-)]; [lia|].
    by apply (Hvel _ _ Hentry). }
  rewrite Zle_Qle in Hlo, Hhi.
  unfold fillOpacity. cbv zeta.
  set (v := inject_Z (maxVelocity (isShapeActive shape activeNotes))) in *.
  set (b := baseOpacity shape) in *.
  change (inject_Z 0) with 0%Q in Hlo. change (inject_Z 127) with 127%Q in Hhi.
  assert (0 <= v / 127 <= 1)%Q as Hx.
  { split.
    - apply Qle_shift_div_l; [reflexivity|]. lra.
    - apply Qle_shift_div_r; [reflexivity|]. lra. }
  set (x := (v / 127)%Q) in *.
  destruct (isActive (isShapeActive shape activeNotes)).
  - destruct (velocitySensitive shape).
    + split; [|intros _]; nra.
    + split; [|intros _]; lra.
  - split; [|done]. destruct mode; split; vm_compute; discriminate.
Qed.

Lemma opacity_within_unit_witness :
  (0 <= fillOpacity PERFORMANCE middleC oneNoteStore <= 1)%Q ∧
  (isActive (isShapeActive middleC oneNoteStore) = true →
   (fillOpacity PERFORMANCE middleC oneNoteStore <= baseOpacity middleC)%Q).
Proof.
  apply (opacity_within_unit PERFORMANCE middleC oneNoteStore).
  - split; vm_compute; discriminate.
  - intros key entry. unfold oneNoteStore.
    rewrite lookup_insert_Some, lookup_empty.
    intros [[_ <-]|[_ ?]]; [simpl; lia|done].
Defined.

(* ===================================================================== *)
(** * Properties of the note names *)
(* ===================================================================== *)

Section NoteNames.

Lemma pretty_Z_not_sharp (z : Z) (s : string) : pretty z ≠ String "#"%char s.
Proof.
  destruct (pretty_Z_shape z) as (d & D & N & [->| ->]).
  - destruct d as [|a d]; [done|]. intros [= -> _]. done.
  - intros [=].
Qed.

Ltac names_differ :=
  match goal with
  | E : _ +:+ _ = _ +:+ _ |- _ =>
      rewrite ?app_cons, ?app_nil in E;
      first
        [ discriminate E
        | by destruct (pretty_Z_not_sharp _ _ E)
        | symmetry in E; by destruct (pretty_Z_not_sharp _ _ E) ]
  end.

(** A name of the table followed by an integer determines both. *)
Lemma name_octave_inj (i j : nat) (nm1 nm2 : string) (z1 z2 : Z) :
  NOTE_NAMES !! i = Some nm1 →
  NOTE_NAMES !! j = Some nm2 →
  nm1 +:+ pretty z1 = nm2 +:+ pretty z2 →
  i = j ∧ z1 = z2.
Proof.
  intros H1 H2 E.
  do 12 (destruct i as [|i];
         [do 12 (destruct j as [|j];
                 [simplify_eq/=; first [done | names_differ]|]);
          done|]).
  done.
Qed.

Lemma midiNoteToName_nonneg (note : Z) :
  0 ≤ note →
  ∃ nm, NOTE_NAMES !! Z.to_nat (Z.modulo note 12) = Some nm ∧
        midiNoteToName note = nm +:+ pretty (Z.div note 12 - 1).
Proof.
  intros Hn. unfold midiNoteToName, elementAt. cbv zeta.
  rewrite Z.rem_mod_nonneg by lia.
  pose proof (Z.mod_pos_bound note 12 ltac:(lia)) as [Hlo Hhi].
  rewrite (proj2 (Z.ltb_ge _ _) Hlo).
  destruct (lookup_lt_is_Some_2 NOTE_NAMES (Z.to_nat (Z.modulo note 12)))
    as [nm Hnm]; [simpl; lia|].
  exists nm. by rewrite Hnm.
Qed.

End NoteNames.

(** X14. Different notes have different names: on the notes from 0 up,
    [midiNoteToName] is injective. *)
Theorem midiNoteToName_injective (note1 note2 : Z) :
  0 ≤ note1 → 0 ≤ note2 →
  midiNoteToName note1 = midiNoteToName note2 → note1 = note2.
Proof.
  intros H1 H2 E.
  destruct (midiNoteToName_nonneg note1 H1) as (nm1 & Hnm1 & E1).
  destruct (midiNoteToName_nonneg note2 H2) as (nm2 & Hnm2 & E2).
  rewrite E1, E2 in E.
  destruct (name_octave_inj _ _ _ _ _ _ Hnm1 Hnm2 E) as [Hi Hz].
  apply Z2Nat.inj in Hi; [|apply Z.mod_pos_bound; lia..].
  rewrite (Z.div_mod note1 12), (Z.div_mod note2 12) by lia. lia.
Qed.

Lemma midiNoteToName_injective_witness : 61 = 61.
Proof.
  apply (midiNoteToName_injective 61 61); [lia|lia|reflexivity].
Defined.

(** X15. A note has a name of the table, followed by its octave
    [floor(note / 12) - 1], when it is not negative or is a multiple of
    12; a negative note that is not a multiple of 12 indexes the table
    below zero and is printed as "undefined" followed by the octave. *)
Theorem midiNoteToName_defined (note : Z) :
  (0 ≤ note ∨ Z.rem note 12 = 0 →
   ∃ nm, nm ∈ NOTE_NAMES ∧
         midiNoteToName note = nm +:+ pretty (Z.div note 12 - 1)) ∧
  (note < 0 → Z.rem note 12 ≠ 0 →
   midiNoteToName note = "undefined" +:+ pretty (Z.div note 12 - 1)).
Proof.
  split.
  - intros [Hn|Hr].
    + destruct (midiNoteToName_nonneg note Hn) as (nm & Hnm & E).
      exists nm. split; [|done]. by eapply list_elem_of_lookup_2.
    + exists "C". split; [by left|].
      unfold midiNoteToName, elementAt. cbv zeta. by rewrite Hr.
  - intros Hn Hr. unfold midiNoteToName, elementAt. cbv zeta.
    pose proof (Z.rem_nonpos note 12 ltac:(lia) ltac:(lia)).
    by rewrite (proj2 (Z.ltb_lt (Z.rem note 12) 0) ltac:(lia)).
Qed.

Lemma midiNoteToName_defined_witness :
  midiNoteToName (-1) = "undefined" +:+ pretty (Z.div (-1) 12 - 1).
Proof.
  apply (proj2 (midiNoteToName_defined (-1))); [lia|vm_compute; discriminate].
Defined.

Example middle_c_name : midiNoteToName 60 = "C4".
Proof. vm_compute. reflexivity. Qed.

Example lowest_and_highest_names :
  midiNoteToName 0 = "C-1" ∧ midiNoteToName 127 = "G9".
Proof. vm_compute. done. Qed.

(* ===================================================================== *)
(** * Further properties of the shape list and of the authoring handlers *)
(* ===================================================================== *)

Section ShapeList.

Implicit Types (app : AppState) (cv : CanvasState) (shape updated : Shape).

Lemma selectedShape_Some app shape :
  selectedShape app = Some shape →
  shape ∈ shapes app ∧ selectedShapeId app = Some (shape_id shape).
Proof.
  unfold selectedShape. intros [Hin Hid]%find_some.
  split; [by apply list_elem_of_In|].
  by apply bool_decide_eq_true in Hid.
Qed.

Lemma polygons_elem (l : list Shape) shape :
  polygons l → shape ∈ l → (3 ≤ length (points shape))%nat.
Proof. unfold polygons. rewrite Forall_forall. auto. Qed.

Lemma arraySet_length_ge {A} (arr : list (option A)) (i : nat) (v : A) :
  (length arr ≤ length (arraySet arr i v))%nat.
Proof.
  unfold arraySet. destruct (i <? length arr)%nat.
  - by rewrite length_insert.
  - rewrite !length_app. lia.
Qed.

Lemma handleNewShape_wellFormed app (uuid : string) (pts : list (option Point)) :
  polygons (shapes app) → (3 ≤ length pts)%nat →
  wellFormed (handleNewShape app uuid pts).
Proof.
  intros Hpoly Hpts. split.
  - unfold polygons, handleNewShape; simpl.
    apply Forall_app. split; [done|]. by apply Forall_singleton.
  - intros id. unfold handleNewShape; simpl. intros [= <-].
    eexists. split.
    + apply elem_of_app. right. apply list_elem_of_singleton. reflexivity.
    + reflexivity.
Qed.

Lemma updateShape_wellFormed app updated :
  wellFormed app → (3 ≤ length (points updated))%nat →
  wellFormed (updateShape app updated).
Proof.
  intros [Hpoly Hsel] Hpts. split.
  - unfold polygons, updateShape; simpl. apply Forall_fmap.
    eapply Forall_impl; [exact Hpoly|]. intros s Hs. simpl.
    by case_decide.
  - intros id Hid. unfold updateShape in *; simpl in *.
    destruct (Hsel id Hid) as (s & Hin & Hs).
    exists (if decide (shape_id s = shape_id updated) then updated else s).
    split.
    + apply list_elem_of_fmap. by exists s.
    + case_decide; congruence.
Qed.

Lemma deleteShape_wellFormed app (id : string) :
  wellFormed app → wellFormed (deleteShape app id).
Proof.
  intros [Hpoly Hsel]. split.
  - unfold polygons, deleteShape in *; simpl. rewrite Forall_forall in *.
    intros s [_ Hin]%list_elem_of_filter. by apply Hpoly.
  - intros id'. unfold deleteShape; simpl.
    case_decide as Hd; [done|]. intros Hid.
    destruct (Hsel id' Hid) as (s & Hin & Hs).
    exists s. split; [|done]. apply list_elem_of_filter. split; [|done].
    intros E. apply Hd. congruence.
Qed.

Lemma deselect_wellFormed app :
  wellFormed app → wellFormed (setSelectedShapeId app None).
Proof. intros [Hpoly _]. split; [done|]. by intros id. Qed.

Lemma select_wellFormed app (id : string) :
  wellFormed app → (∃ s, s ∈ shapes app ∧ shape_id s = id) →
  wellFormed (setSelectedShapeId app (Some id)).
Proof.
  intros [Hpoly _] Hex. split; [done|]. by intros id' [= <-].
Qed.

Lemma finishDrawing_wellFormed app cv (uuid : string) :
  wellFormed app → wellFormed (finishDrawing app cv uuid).1.
Proof.
  intros Hwf. unfold finishDrawing. cbv zeta. cbn [fst].
  destruct (Nat.leb_spec 3 (length (drawingPoints cv))); [|done].
  apply handleNewShape_wellFormed; [apply Hwf|done].
Qed.

Lemma handleKeyDown_wellFormed app cv (key uuid : string) :
  wellFormed app → wellFormed (handleKeyDown app cv key uuid).1.
Proof.
  intros Hwf. unfold handleKeyDown.
  destruct (mode app); [|done].
  destruct (String.eqb key "Enter" && isDrawing cv) eqn:E.
  - pose proof (finishDrawing_wellFormed app cv uuid Hwf) as Hfin.
    destruct (finishDrawing app cv uuid) as [app1 cv1]. cbn [fst] in Hfin.
    destruct (String.eqb key "Escape"); [|done].
    destruct (isDrawing cv); [done|]. by apply deselect_wellFormed.
  - destruct (String.eqb key "Escape"); [|done].
    destruct (isDrawing cv); [done|]. by apply deselect_wellFormed.
Qed.

Lemma handleSvgClick_wellFormed app cv rect (x y : Q) (targetIsSvg : bool) :
  wellFormed app → wellFormed (handleSvgClick app cv rect x y targetIsSvg).1.
Proof.
  intros Hwf. unfold handleSvgClick.
  destruct (mode app); [|done].
  repeat case_match; try done. by apply deselect_wellFormed.
Qed.

Lemma handleWindowMouseMove_wellFormed app (idx : nat) rect (x y : Q) :
  wellFormed app → wellFormed (handleWindowMouseMove app idx rect x y).
Proof.
  intros Hwf. unfold handleWindowMouseMove.
  destruct (draggedShape app idx rect x y) as [updated|] eqn:Hdrag; [|done].
  apply updateShape_wellFormed; [done|].
  unfold draggedShape in Hdrag.
  destruct (negb (truthy (selectedShapeId app))); [done|].
  destruct (List.find _ (shapes app)) as [shape|] eqn:Hfind; [|done].
  apply find_some in Hfind as [Hin _]. apply list_elem_of_In in Hin.
  injection Hdrag as <-. cbn [points].
  pose proof (polygons_elem _ _ (proj1 Hwf) Hin).
  pose proof (arraySet_length_ge (points shape) idx
                {| px := clamp (px (getCoords rect x y));
                   py := clamp (py (getCoords rect x y)) |}).
  lia.
Qed.

Lemma handleChange_keeps shape (edit : FieldEdit) :
  shape_id (handleChange shape edit) = shape_id shape ∧
  points (handleChange shape edit) = points shape.
Proof. by destruct edit. Qed.

End ShapeList.

(** X16. The handlers keep the shape list well formed: if every shape
    has at least 3 points and the selection is the id of a listed shape
    (or there is none), the same holds after a key press, a commit, a
    click on the surface, a click on a listed shape, a drag update, a
    deletion, and an edit of the selected shape in the editor. *)
Theorem handlers_keep_shapes_well_formed
    (app : AppState) (cv : CanvasState) (key uuid id : string)
    (rect : option Rect) (x y : Q) (targetIsSvg : bool) (idx : nat)
    (edit : FieldEdit) :
  wellFormed app →
  wellFormed (handleKeyDown app cv key uuid).1 ∧
  wellFormed (handleGlobalKeyDown app key) ∧
  wellFormed (finishDrawing app cv uuid).1 ∧
  wellFormed (handleSvgClick app cv rect x y targetIsSvg).1 ∧
  ((∃ s, s ∈ shapes app ∧ shape_id s = id) →
   wellFormed (handleShapeClick app cv id rect x y).1) ∧
  wellFormed (handleWindowMouseMove app idx rect x y) ∧
  wellFormed (deleteShape app id) ∧
  (∀ shape, selectedShape app = Some shape →
            wellFormed (updateShape app (handleChange shape edit))).
Proof.
  intros Hwf. split_and!.
  - by apply handleKeyDown_wellFormed.
  - unfold handleGlobalKeyDown. by case_match.
  - by apply finishDrawing_wellFormed.
  - by apply handleSvgClick_wellFormed.
  - intros Hex. unfold handleShapeClick. destruct (mode app) eqn:Hm.
    + by apply select_wellFormed.
    + pose proof (handleSvgClick_wellFormed app cv rect x y false Hwf) as H.
      done.
  - by apply handleWindowMouseMove_wellFormed.
  - by apply deleteShape_wellFormed.
  - intros shape Hsel. apply updateShape_wellFormed; [done|].
    destruct (handleChange_keeps shape edit) as [_ ->].
    apply selectedShape_Some in Hsel as [Hin _].
    by apply (polygons_elem _ _ (proj1 Hwf)).
Qed.

Lemma oneTriangle_wellFormed : wellFormed oneTriangle.
Proof.
  split.
  - unfold polygons, oneTriangle; simpl. repeat constructor.
  - intros id [= <-]. exists triangle. split; [apply list_elem_of_here|reflexivity].
Defined.

Lemma handlers_keep_shapes_well_formed_witness :
  wellFormed (deleteShape oneTriangle "s1") ∧
  wellFormed (handleWindowMouseMove oneTriangle 7 surface 300 50).
Proof.
  destruct (handlers_keep_shapes_well_formed
              oneTriangle idle "Enter" "uuid-1" "s1" surface 300 50 true 7
              (EditChannel 3) oneTriangle_wellFormed)
    as (_ & _ & _ & _ & _ & Hmove & Hdel & _).
  split; assumption.
Defined.

Section Session.

Implicit Types (app : AppState) (cv : CanvasState).

Lemma sessionOk_idle (dragged : option nat) : sessionOk (mkCanvas [] false dragged).
Proof. split; [done|]. constructor. Qed.

Lemma handleSvgClick_sessionOk app cv rect (x y : Q) (targetIsSvg : bool) :
  sessionOk cv → sessionOk (handleSvgClick app cv rect x y targetIsSvg).2.
Proof.
  intros Hok. unfold handleSvgClick.
  destruct (mode app); [|done].
  destruct (truthy (selectedShapeId app) && negb (isDrawing cv) && targetIsSvg);
    [done|].
  destruct (negb (isDrawing cv) && negb (truthy (selectedShapeId app))).
  - split; simpl; [done|]. by repeat constructor.
  - destruct (isDrawing cv) eqn:Hd; [|done].
    destruct Hok as [_ Hall]. split; simpl.
    + split; [|done]. by intros [_ ?]%app_eq_nil.
    + apply Forall_app. split; [done|]. by repeat constructor.
Qed.

Lemma finishDrawing_sessionOk app cv (uuid : string) :
  sessionOk (finishDrawing app cv uuid).2.
Proof. apply sessionOk_idle. Qed.

Lemma handleKeyDown_sessionOk app cv (key uuid : string) :
  sessionOk cv → sessionOk (handleKeyDown app cv key uuid).2.
Proof.
  intros Hok. unfold handleKeyDown.
  destruct (mode app); [|done].
  destruct (String.eqb key "Enter" && isDrawing cv).
  - unfold finishDrawing. cbv zeta.
    destruct (String.eqb key "Escape"); [|apply sessionOk_idle].
    destruct (isDrawing cv); apply sessionOk_idle.
  - destruct (String.eqb key "Escape"); [|done].
    destruct (isDrawing cv); [apply sessionOk_idle|done].
Qed.

End Session.

(** X17. The draw session stays consistent: if there are points exactly
    while drawing and none of them is a hole, the same holds after a
    click on the surface, a click on a shape, a key press, a commit, the
    grab of a vertex handle and the release of the mouse. *)
Theorem handlers_keep_session_consistent
    (app : AppState) (cv : CanvasState) (key uuid id : string)
    (rect : option Rect) (x y : Q) (targetIsSvg : bool) (i : nat) :
  sessionOk cv →
  sessionOk (handleSvgClick app cv rect x y targetIsSvg).2 ∧
  sessionOk (handleShapeClick app cv id rect x y).2 ∧
  sessionOk (handleKeyDown app cv key uuid).2 ∧
  sessionOk (finishDrawing app cv uuid).2 ∧
  sessionOk (handleHandleMouseDown cv i) ∧
  sessionOk (handleWindowMouseUp cv).
Proof.
  intros Hok. split_and!.
  - by apply handleSvgClick_sessionOk.
  - unfold handleShapeClick. destruct (mode app) eqn:Hm; [done|].
    by apply handleSvgClick_sessionOk.
  - by apply handleKeyDown_sessionOk.
  - apply finishDrawing_sessionOk.
  - exact Hok.
  - exact Hok.
Qed.

Lemma handlers_keep_session_consistent_witness :
  sessionOk (handleSvgClick noShapes threePoints surface 40 40 true).2 ∧
  sessionOk (handleKeyDown noShapes threePoints "Escape" "uuid-1").2.
Proof.
  destruct (handlers_keep_session_consistent
              noShapes threePoints "Escape" "uuid-1" "s1" surface 40 40 true 0)
    as (Hclick & _ & Hkey & _).
  - split; [split; discriminate|]. simpl. repeat constructor; by eexists.
  - split; assumption.
Defined.

Section Drawing.

Implicit Types (app : AppState) (cv : CanvasState).

Lemma clickAll_snoc rect (clicks : list (Q * Q)) (xy : Q * Q)
    (st : AppState * CanvasState) :
  clickAll rect (clicks ++ [xy]) st =
    handleSvgClick (clickAll rect clicks st).1 (clickAll rect clicks st).2
                   rect xy.1 xy.2 true.
Proof. unfold clickAll. by rewrite foldl_app. Qed.

(** Clicks on the background, from the idle canvas with nothing
    selected, collect the normalized positions in their order. *)
Lemma clickAll_collects app rect (clicks : list (Q * Q)) :
  mode app = EDIT → truthy (selectedShapeId app) = false → clicks ≠ [] →
  clickAll rect clicks (app, idle) =
    (app, mkCanvas ((λ xy, Some (getCoords rect xy.1 xy.2)) <$> clicks) true None).
Proof.
  intros Hmode Hsel.
  induction clicks as [|xy clicks IH] using rev_ind; [done|]. intros _.
  rewrite clickAll_snoc.
  destruct clicks as [|xy' clicks'].
  - simpl. unfold handleSvgClick. rewrite Hmode, Hsel. reflexivity.
  - rewrite IH by done. cbn [fst snd].
    unfold handleSvgClick. rewrite Hmode, Hsel.
    cbn [isDrawing drawingPoints draggedPointIndex negb andb].
    by rewrite fmap_app.
Qed.

End Drawing.

(** X18. Drawing a polygon end to end: in EDIT mode with nothing
    selected and the canvas idle, three or more clicks on the background
    followed by Enter append exactly one shape to the list; its points
    are the normalized click positions in click order, none missing; it
    becomes the selection, and the canvas is idle again. *)
Theorem clicks_then_enter_create_the_polygon
    (app : AppState) (rect : option Rect) (clicks : list (Q * Q))
    (uuid : string) :
  mode app = EDIT →
  truthy (selectedShapeId app) = false →
  (3 ≤ length clicks)%nat →
  ∃ region,
    handleKeyDown (clickAll rect clicks (app, idle)).1
                  (clickAll rect clicks (app, idle)).2 "Enter" uuid
      = (mkApp (shapes app ++ [region]) (Some uuid) EDIT, idle) ∧
    points region = (λ xy, Some (getCoords rect xy.1 xy.2)) <$> clicks ∧
    shape_id region = uuid ∧
    channel region = 0 ∧ noteStart region = 60 ∧ noteEnd region = 60.
Proof.
  intros Hmode Hsel Hlen.
  rewrite clickAll_collects; [|done|done|intros ->; simpl in Hlen; lia].
  cbn [fst snd]. unfold handleKeyDown. rewrite Hmode.
  cbn [isDrawing]. change (String.eqb "Enter" "Enter" && true) with true.
  cbv iota. unfold finishDrawing. cbv zeta. cbn [drawingPoints].
  rewrite length_fmap. rewrite (proj2 (Nat.leb_le _ _) Hlen).
  change (String.eqb "Enter" "Escape") with false. cbv iota.
  eexists. split.
  - unfold handleNewShape. cbn [shapes mode shape_id draggedPointIndex fst].
    rewrite Hmode. reflexivity.
  - split_and!; reflexivity.
Qed.

Lemma clicks_then_enter_create_the_polygon_witness :
  ∃ region,
    handleKeyDown (clickAll surface threeClicks (noShapes, idle)).1
                  (clickAll surface threeClicks (noShapes, idle)).2
                  "Enter" "uuid-1"
      = (mkApp (shapes noShapes ++ [region]) (Some "uuid-1") EDIT, idle) ∧
    points region
      = (λ xy, Some (getCoords surface xy.1 xy.2)) <$> threeClicks ∧
    shape_id region = "uuid-1" ∧
    channel region = 0 ∧ noteStart region = 60 ∧ noteEnd region = 60.
Proof.
  apply (clicks_then_enter_create_the_polygon
           noShapes surface threeClicks "uuid-1");
    [reflexivity|reflexivity|simpl; lia].
Defined.

(** X19. In PERFORMANCE mode the canvas is read-only: a key press, a
    click on the surface and a click on a shape leave the shape list,
    the selection and the draw session as they were; and the only key
    the application reacts to is Escape, which changes nothing but the
    mode, back to EDIT. *)
Theorem performance_mode_is_read_only
    (app : AppState) (cv : CanvasState) (key uuid id : string)
    (rect : option Rect) (x y : Q) (targetIsSvg : bool) :
  mode app = PERFORMANCE →
  handleKeyDown app cv key uuid = (app, cv) ∧
  handleSvgClick app cv rect x y targetIsSvg = (app, cv) ∧
  handleShapeClick app cv id rect x y = (app, cv) ∧
  shapes (handleGlobalKeyDown app key) = shapes app ∧
  selectedShapeId (handleGlobalKeyDown app key) = selectedShapeId app ∧
  (key ≠ "Escape" → handleGlobalKeyDown app key = app) ∧
  mode (handleGlobalKeyDown app "Escape") = EDIT.
Proof.
  intros Hmode.
  unfold handleKeyDown, handleShapeClick, handleSvgClick, handleGlobalKeyDown.
  rewrite Hmode. split_and!; try done.
  - by destruct (String.eqb key "Escape").
  - by destruct (String.eqb key "Escape").
  - intros Hkey. by rewrite (proj2 (String.eqb_neq key "Escape") Hkey).
Qed.

Lemma performance_mode_is_read_only_witness :
  handleKeyDown (mkApp [triangle] (Some "s1") PERFORMANCE) threePoints "Enter" "uuid-1"
    = (mkApp [triangle] (Some "s1") PERFORMANCE, threePoints).
Proof.
  apply (performance_mode_is_read_only
           (mkApp [triangle] (Some "s1") PERFORMANCE) threePoints
           "Enter" "uuid-1" "s1" surface 0 0 true).
  reflexivity.
Defined.

Section Dragging.

Implicit Types (app : AppState) (shape updated : Shape).

Lemma arraySet_inside {A} (arr : list (option A)) (i : nat) (v : A) :
  (i < length arr)%nat → arraySet arr i v = <[ i := Some v ]> arr.
Proof. intros Hlt. unfold arraySet. by rewrite (proj2 (Nat.ltb_lt _ _) Hlt). Qed.



Lemma find_map_same {A} (P : A → bool) (f : A → A) (l : list A) :
  (∀ a, P (f a) = P a) → List.find P (map f l) = f <$> List.find P l.
Proof.
  intros HP. induction l as [|a l IH]; [done|]. simpl.
  rewrite HP. by destruct (P a).
Qed.

Lemma draggedShape_None app (idx : nat) rect (x y : Q) :
  draggedShape app idx rect x y = None ↔
  truthy (selectedShapeId app) = false ∨ selectedShape app = None.
Proof.
  unfold draggedShape, selectedShape.
  destruct (truthy (selectedShapeId app)); simpl.
  - destruct (List.find _ (shapes app)); split; try done.
    + intros [?|?]; done.
    + by right.
  - split; [by left|done].
Qed.

Lemma draggedShape_Some app (idx : nat) rect (x y : Q) shape :
  truthy (selectedShapeId app) = true → selectedShape app = Some shape →
  draggedShape app idx rect x y =
    Some (mkShape (shape_id shape) (name shape)
            (arraySet (points shape) idx
               (mkPoint (clamp (px (getCoords rect x y)))
                        (clamp (py (getCoords rect x y)))))
            (channel shape) (noteStart shape) (noteEnd shape) (color shape)
            (velocitySensitive shape) (baseOpacity shape)).
Proof.
  unfold draggedShape, selectedShape. intros -> ->. reflexivity.
Qed.

Lemma updateShape_updateShape app (u1 u2 : Shape) :
  shape_id u1 = shape_id u2 →
  updateShape (updateShape app u1) u2 = updateShape app u2.
Proof.
  intros Hid. unfold updateShape; simpl. f_equal.
  rewrite map_map. apply map_ext. intros s.
  rewrite Hid. destruct (decide (shape_id s = shape_id u2)) as [E|E].
  - by rewrite decide_True.
  - by rewrite decide_False.
Qed.

Lemma selectedShape_updateShape app updated :
  selectedShape (updateShape app updated) =
    (λ s, if decide (shape_id s = shape_id updated) then updated else s)
      <$> selectedShape app.
Proof.
  unfold selectedShape, updateShape; simpl.
  apply find_map_same. intros s. case_decide as E; [by rewrite <- E|done].
Qed.

End Dragging.


(** X21. What a drag update changes. Without a selection that names a
    listed shape the update does nothing. Otherwise, for a vertex index
    inside the polygon, the shape handed to [onShapeUpdate] has the
    same number of points, the same points at every other index, and
    the same id and trigger and colour settings; the list keeps its
    length and the ids in their order, and every shape with another id
    stays in the list. *)
Theorem drag_moves_one_vertex (app : AppState) (idx : nat)
    (rect : option Rect) (x y : Q) :
  (truthy (selectedShapeId app) = false ∨ selectedShape app = None →
   handleWindowMouseMove app idx rect x y = app) ∧
  (∀ shape,
     truthy (selectedShapeId app) = true →
     selectedShape app = Some shape →
     (idx < length (points shape))%nat →
     ∃ updated,
       draggedShape app idx rect x y = Some updated ∧
       length (points updated) = length (points shape) ∧
       (∀ j, j ≠ idx → points updated !! j = points shape !! j) ∧
       (shape_id updated, name updated, channel updated, noteStart updated,
        noteEnd updated, color updated, velocitySensitive updated,
        baseOpacity updated)
       = (shape_id shape, name shape, channel shape, noteStart shape,
          noteEnd shape, color shape, velocitySensitive shape,
          baseOpacity shape) ∧
       map shape_id (shapes (handleWindowMouseMove app idx rect x y))
         = map shape_id (shapes app) ∧
       (∀ other, other ∈ shapes app → shape_id other ≠ shape_id shape →
                 other ∈ shapes (handleWindowMouseMove app idx rect x y))).
Proof.
  split.
  - intros Hnone. unfold handleWindowMouseMove.
    by rewrite (proj2 (draggedShape_None app idx rect x y) Hnone).
  - intros shape Hsel Hfind Hidx.
    unfold handleWindowMouseMove.
    rewrite (draggedShape_Some app idx rect x y shape Hsel Hfind).
    eexists. split; [reflexivity|]. cbn [points shape_id name channel
      noteStart noteEnd color velocitySensitive baseOpacity].
    rewrite arraySet_inside by done.
    split_and!.
    + by rewrite length_insert.
    + intros j Hj. by rewrite list_lookup_insert_ne.
    + reflexivity.
    + unfold updateShape; cbn [shapes shape_id]. rewrite map_map.
      apply map_ext. intros s. by case_decide.
    + intros other Hin Hother. unfold updateShape; cbn [shapes shape_id].
      apply list_elem_of_In, in_map_iff. exists other.
      split; [by rewrite decide_False|by apply list_elem_of_In].
Qed.

Lemma drag_moves_one_vertex_witness :
  ∃ updated,
    draggedShape oneTriangle 1 surface 300 50 = Some updated ∧
    length (points updated) = length (points triangle) ∧
    (∀ j, j ≠ 1%nat → points updated !! j = points triangle !! j) ∧
    (shape_id updated, name updated, channel updated, noteStart updated,
     noteEnd updated, color updated, velocitySensitive updated,
     baseOpacity updated)
    = (shape_id triangle, name triangle, channel triangle, noteStart triangle,
       noteEnd triangle, color triangle, velocitySensitive triangle,
       baseOpacity triangle) ∧
    map shape_id (shapes (handleWindowMouseMove oneTriangle 1 surface 300 50))
      = map shape_id (shapes oneTriangle) ∧
    (∀ other, other ∈ shapes oneTriangle → shape_id other ≠ shape_id triangle →
              other ∈ shapes (handleWindowMouseMove oneTriangle 1 surface 300 50)).
Proof.
  apply (proj2 (drag_moves_one_vertex oneTriangle 1 surface 300 50) triangle);
    [reflexivity|reflexivity|simpl; lia].
Defined.

(** X22. Deleting by id removes every shape with that id and nothing
    else: the shapes left are those with another id, in their order;
    the deleted id is not the selection afterwards, while any other
    selection is kept; deleting the same id again changes nothing; and
    deleting an id that no shape has and that is not selected changes
    nothing at all. *)
Theorem deleteShape_removes_by_id (app : AppState) (id : string) :
  (∀ s, s ∈ shapes (deleteShape app id) ↔ s ∈ shapes app ∧ shape_id s ≠ id) ∧
  sublist (shapes (deleteShape app id)) (shapes app) ∧
  selectedShapeId (deleteShape app id) ≠ Some id ∧
  (selectedShapeId app ≠ Some id →
   selectedShapeId (deleteShape app id) = selectedShapeId app) ∧
  deleteShape (deleteShape app id) id = deleteShape app id ∧
  ((∀ s, s ∈ shapes app → shape_id s ≠ id) → selectedShapeId app ≠ Some id →
   deleteShape app id = app).
Proof.
  split_and!.
  - intros s. unfold deleteShape; simpl. rewrite list_elem_of_filter. tauto.
  - apply sublist_filter.
  - unfold deleteShape; simpl. by case_decide.
  - intros Hne. unfold deleteShape; simpl. by rewrite decide_False.
  - unfold deleteShape; simpl. f_equal.
    + rewrite list_filter_filter. apply list_filter_iff. tauto.
    + destruct (decide (selectedShapeId app = Some id)) as [E|E].
      * by rewrite decide_False.
      * by rewrite decide_False.
  - intros Hall Hsel. destruct app as [l sel m]. unfold deleteShape; simpl in *.
    f_equal.
    + induction l as [|s l IH]; [done|].
      rewrite filter_cons_True by (apply Hall; by left).
      f_equal. apply IH. intros s' Hs'. apply Hall. by right.
    + by rewrite decide_False.
Qed.

Lemma deleteShape_removes_by_id_witness :
  deleteShape oneTriangle "s2" = oneTriangle.
Proof.
  apply (proj2 (proj2 (proj2 (proj2 (proj2
           (deleteShape_removes_by_id oneTriangle "s2")))))).
  - intros s Hs. apply list_elem_of_singleton in Hs as ->. discriminate.
  - discriminate.
Defined.

(** X23. Updating replaces by id: the list keeps its ids in their order
    (so its length), every shape with the id of the new one becomes the
    new one and every other shape is kept; when the new shape's id is
    selected and listed, looking up the selection gives the new shape;
    updating with an id that no shape has changes nothing; and of two
    updates with the same id the later one decides. *)
Theorem updateShape_replaces_by_id (app : AppState) (updated : Shape) :
  map shape_id (shapes (updateShape app updated)) = map shape_id (shapes app) ∧
  (∀ i s, shapes app !! i = Some s →
          shapes (updateShape app updated) !! i =
            Some (if decide (shape_id s = shape_id updated) then updated else s)) ∧
  (selectedShapeId app = Some (shape_id updated) →
   (∃ s, s ∈ shapes app ∧ shape_id s = shape_id updated) →
   selectedShape (updateShape app updated) = Some updated) ∧
  ((∀ s, s ∈ shapes app → shape_id s ≠ shape_id updated) →
   updateShape app updated = app) ∧
  (∀ earlier, shape_id earlier = shape_id updated →
              updateShape (updateShape app earlier) updated
              = updateShape app updated).
Proof.
  split_and!.
  - unfold updateShape; simpl. rewrite map_map. apply map_ext.
    intros s. by case_decide.
  - intros i s Hi. unfold updateShape; simpl.
    change (map ?f ?l) with (f <$> l). by rewrite list_lookup_fmap, Hi.
  - intros Hsel (s & Hin & Hid).
    rewrite selectedShape_updateShape. unfold selectedShape.
    destruct (List.find _ (shapes app)) as [found|] eqn:Hfind.
    + apply find_some in Hfind as [_ Hf]. apply bool_decide_eq_true in Hf.
      simpl. rewrite decide_True; [done|]. congruence.
    + exfalso. apply list_elem_of_In in Hin.
      pose proof (find_none _ _ Hfind s Hin) as Hf. simpl in Hf.
      apply bool_decide_eq_false in Hf. apply Hf. congruence.
  - intros Hall. destruct app as [l sel m]. unfold updateShape; simpl in *.
    f_equal. rewrite <- (map_id l) at 2. apply map_ext_in.
    intros s Hs. rewrite decide_False; [done|].
    apply Hall. by apply list_elem_of_In.
  - intros earlier Hid. by apply updateShape_updateShape.
Qed.

Lemma updateShape_replaces_by_id_witness :
  selectedShape (updateShape oneTriangle (handleChange triangle (EditChannel 3)))
  = Some (handleChange triangle (EditChannel 3)).
Proof.
  apply (proj1 (proj2 (proj2
           (updateShape_replaces_by_id oneTriangle
              (handleChange triangle (EditChannel 3)))))).
  - reflexivity.
  - exists triangle. split; [apply list_elem_of_here|reflexivity].
Defined.

Lemma find_append {A} (P : A → bool) (l k : list A) :
  List.find P (l ++ k) =
    match List.find P l with Some a => Some a | None => List.find P k end.
Proof.
  induction l as [|a l IH]; [done|]. simpl. by destruct (P a).
Qed.

(** X24. Creating a shape with an id that no listed shape has: the
    earlier shapes keep their places, the new shape is the last one and
    is what looking up the selection gives; its points are the given
    ones, its name counts the shapes, and the ids stay pairwise
    different if they were. *)
Theorem handleNewShape_appends_and_selects
    (app : AppState) (uuid : string) (pts : list (option Point)) :
  (∀ s, s ∈ shapes app → shape_id s ≠ uuid) →
  ∃ region,
    shapes (handleNewShape app uuid pts) = shapes app ++ [region] ∧
    selectedShape (handleNewShape app uuid pts) = Some region ∧
    shape_id region = uuid ∧ points region = pts ∧
    name region = "Shape " +:+ pretty (length (shapes app) + 1)%nat ∧
    (NoDup (map shape_id (shapes app)) →
     NoDup (map shape_id (shapes (handleNewShape app uuid pts)))).
Proof.
  intros Hfresh. eexists. split; [reflexivity|]. split_and!; try reflexivity.
  - unfold selectedShape, handleNewShape; cbn [shapes selectedShapeId shape_id].
    rewrite find_append.
    destruct (List.find _ (shapes app)) as [found|] eqn:Hfind.
    + apply find_some in Hfind as [Hin Hf]. apply bool_decide_eq_true in Hf.
      exfalso. apply (Hfresh found); [by apply list_elem_of_In|]. congruence.
    + simpl. by rewrite bool_decide_eq_true_2.
  - intros Hnd. unfold handleNewShape; cbn [shapes shape_id].
    rewrite map_app. apply NoDup_app. split_and!; [done| |apply NoDup_singleton].
    intros id Hid Hin. simpl in Hin. apply list_elem_of_singleton in Hin as ->.
    apply list_elem_of_In, in_map_iff in Hid as (s & Hs & Hin).
    by apply (Hfresh s); [apply list_elem_of_In|].
Qed.

Lemma handleNewShape_appends_and_selects_witness :
  ∃ region,
    shapes (handleNewShape oneTriangle "s2" (drawingPoints threePoints))
      = shapes oneTriangle ++ [region] ∧
    selectedShape (handleNewShape oneTriangle "s2" (drawingPoints threePoints))
      = Some region ∧
    shape_id region = "s2" ∧ points region = drawingPoints threePoints ∧
    name region = "Shape " +:+ pretty (length (shapes oneTriangle) + 1)%nat ∧
    (NoDup (map shape_id (shapes oneTriangle)) →
     NoDup (map shape_id
              (shapes (handleNewShape oneTriangle "s2" (drawingPoints threePoints))))).
Proof.
  apply (handleNewShape_appends_and_selects oneTriangle "s2"
           (drawingPoints threePoints)).
  intros s Hs. apply list_elem_of_singleton in Hs as ->. discriminate.
Defined.

(** X25. A pointer inside a bounding box of positive size normalizes
    to coordinates within 0..100, which the clamp of a drag update then
    leaves as they are. *)
Theorem getCoords_inside_box (rect : Rect) (clientX clientY : Q) :
  (0 < width rect)%Q → (0 < height rect)%Q →
  (left rect <= clientX <= left rect + width rect)%Q →
  (top rect <= clientY <= top rect + height rect)%Q →
  within100 (px (getCoords (Some rect) clientX clientY)) ∧
  within100 (py (getCoords (Some rect) clientX clientY)) ∧
  sameNumber (clamp (px (getCoords (Some rect) clientX clientY)))
             (px (getCoords (Some rect) clientX clientY)) ∧
  sameNumber (clamp (py (getCoords (Some rect) clientX clientY)))
             (py (getCoords (Some rect) clientX clientY)).
Proof.
  intros Hw Hh Hx Hy.
  assert (∀ d w : Q, (0 < w → 0 <= d <= w → 0 <= d / w * 100 <= 100)%Q) as Hunit.
  { intros d w Hpos [Hlo Hhi].
    assert (0 <= d / w)%Q by (apply Qle_shift_div_l; [done|]; lra).
    assert (d / w <= 1)%Q by (apply Qle_shift_div_r; [done|]; lra).
    lra. }
  assert (within100 (px (getCoords (Some rect) clientX clientY))) as Hpx.
  { simpl. rewrite jsDivide_finite by lra. simpl. apply Hunit; [done|]. lra. }
  assert (within100 (py (getCoords (Some rect) clientX clientY))) as Hpy.
  { simpl. rewrite jsDivide_finite by lra. simpl. apply Hunit; [done|]. lra. }
  split_and!; try done; by apply clamp_id.
Qed.

Lemma getCoords_inside_box_witness :
  within100 (px (getCoords (Some (mkRect 0 0 200 100)) 50 50)) ∧
  within100 (py (getCoords (Some (mkRect 0 0 200 100)) 50 50)) ∧
  sameNumber (clamp (px (getCoords (Some (mkRect 0 0 200 100)) 50 50)))
             (px (getCoords (Some (mkRect 0 0 200 100)) 50 50)) ∧
  sameNumber (clamp (py (getCoords (Some (mkRect 0 0 200 100)) 50 50)))
             (py (getCoords (Some (mkRect 0 0 200 100)) 50 50)).
Proof.
  apply (getCoords_inside_box (mkRect 0 0 200 100) 50 50);
    try reflexivity; split; vm_compute; discriminate.
Defined.
